(** * JAM.V / SHOE: component pools and the frame loop

  A shallow embedding of [ComponentPool<T>] (ComponentPool.h) and of the
  parts of [Game] (Game.cpp) that sequence the shadow passes, the resize
  protocol and the loading screen, with the properties the design
  document states about them. *)

From Stdlib Require Import String.
From Stdlib Require Import List Bool Arith ZArith Lia Permutation.
From Stdlib Require Import Sorting.Sorted.
Import ListNotations.

Set Implicit Arguments.

(** A pointer ([std::shared_ptr<X>], [X*]) is modelled by the address of
    the object it points to: [==], [<] and [std::remove] on shared
    pointers compare exactly that address.  Address 0 is [nullptr]. *)
Definition addr : Type := nat.
Definition nullptr : addr := 0.

(** ** The parts of the C++ standard library the pool relies on *)

Module Std.

(** The requirement [std::sort] puts on its comparator (Compare): a
    strict weak ordering. *)
Record StrictWeakOrder {A : Type} (comp : A -> A -> bool) : Prop := {
  swo_irrefl : forall a, comp a a = false;
  swo_trans  : forall a b c, comp a b = true -> comp b c = true -> comp a c = true;
  swo_equiv  : forall a b c,
      comp a b = false -> comp b a = false ->
      comp b c = false -> comp c b = false ->
      comp a c = false /\ comp c a = false
}.

(** "Sorted with respect to [comp]": for every position [i] and every
    later position [i + n], [comp l[i+n] l[i]] is false. *)
Definition is_sorted {A : Type} (comp : A -> A -> bool) (l : list A) : Prop :=
  StronglySorted (fun a b => comp b a = false) l.

(** [std::sort(first, last, comp)].  The standard fixes its result only
    up to the order of equivalent elements, so the algorithm is left
    open: any function with the contract below is a [std::sort]. *)
Class Sorter : Type := {
  sort : forall A : Type, (A -> A -> bool) -> list A -> list A;
  sort_permutes : forall (A : Type) (comp : A -> A -> bool) (l : list A),
      StrictWeakOrder comp -> Permutation l (sort comp l);
  sort_sorts : forall (A : Type) (comp : A -> A -> bool) (l : list A),
      StrictWeakOrder comp -> is_sorted comp (sort comp l)
}.

(** One implementation, to run the model on concrete inputs. *)
Section Insertion.
Variable A : Type.
Variable comp : A -> A -> bool.

Fixpoint insert (x : A) (l : list A) : list A :=
  match l with
  | [] => [x]
  | y :: l' => if comp x y then x :: l else y :: insert x l'
  end.

Fixpoint insertion_sort (l : list A) : list A :=
  match l with
  | [] => []
  | x :: l' => insert x (insertion_sort l')
  end.
End Insertion.

End Std.

(** ** ComponentPool<T> (ComponentPool.h) *)

Module ComponentPool.

(** [constexpr auto POOL_SIZE = 32;] *)
Definition POOL_SIZE : nat := 32.

(** A [std::shared_ptr<IComponent>] handed to [Free]: the component it
    points to is either a [T] or a component of another class. *)
Inductive IComponentPtr : Type :=
| PtrT (a : addr)
| PtrOther (a : addr).

Definition get (c : IComponentPtr) : addr :=
  match c with PtrT a => a | PtrOther a => a end.

(** [std::dynamic_pointer_cast<T>(component)] *)
Definition dynamic_pointer_cast (c : IComponentPtr) : addr :=
  match c with PtrT a => a | PtrOther _ => nullptr end.

(** Everything the pool touches but does not own: the component objects,
    their materials and the entities.  The member functions below are
    declared in headers (IComponent.h, MeshRenderer.h, Material.h,
    Light.h) whose bodies are not part of the pool; they are taken as
    they come.  A light's type is an enumeration value. *)
Class Components (World : Type) : Type := {
  (** [T::T()], run by [std::make_shared<T>()] for the object at [a] *)
  T_construct : addr -> World -> World;
  (** [component->Bind(gameEntity)] *)
  IComponent_Bind : addr -> addr -> World -> World;
  (** [component->Free()] *)
  IComponent_Free : addr -> World -> World;
  (** [component->IsEnabled()] *)
  IComponent_IsEnabled : World -> addr -> bool;
  (** [renderer->GetMaterial()], a [std::shared_ptr<Material>] *)
  MeshRenderer_GetMaterial : World -> addr -> addr;
  (** [material->GetTransparent()] *)
  Material_GetTransparent : World -> addr -> bool;
  (** [light->GetType()] *)
  Light_GetType : World -> addr -> Z
}.

(** The three bodies [Sort] has: the class template's empty one and the
    two explicit specialisations. *)
Inductive PoolType : Type := OtherComponent | MeshRenderer | Light.

Section Pool.
Context {World : Type} {C : Components World} {std : Std.Sorter}.

(** The static members of [ComponentPool<T>], the allocator and the world.
    [unallocated] is a [std::queue]: [front] is the head of the list and
    [push] appends.  [std::make_shared] never returns the address of a
    live object, and the pool keeps every object it has made alive; the
    allocator is therefore a counter, [heap_next], the first address not
    handed out yet. *)
Record State : Type := mkState {
  allocated : list addr;
  unallocated : list addr;
  heap_next : addr;
  world : World
}.

Definition init (w : World) : State :=
  {| allocated := []; unallocated := []; heap_next := 1; world := w |}.

(** [unallocated.front()]; undefined on an empty queue, which
    [Instantiate] never reaches (lemma [ensure_available_front]). *)
Definition front (q : list addr) : addr := hd nullptr q.

(** [unallocated.pop()] *)
Definition pop (q : list addr) : list addr := tl q.

(** [unallocated.push(std::make_shared<T>())] *)
Definition push_new (s : State) : State :=
  {| allocated := allocated s;
     unallocated := unallocated s ++ [heap_next s];
     heap_next := S (heap_next s);
     world := T_construct (heap_next s) (world s) |}.

(** [for (int i = 0; i < POOL_SIZE; i++) unallocated.push(...)], with [n]
    iterations left. *)
Fixpoint refill (n : nat) (s : State) : State :=
  match n with
  | O => s
  | S n' => refill n' (push_new s)
  end.

(** The lambda of [ComponentPool<MeshRenderer>::Sort]. *)
Definition MeshRenderer_less (w : World) (a b : addr) : bool :=
  let ta := Material_GetTransparent w (MeshRenderer_GetMaterial w a) in
  let tb := Material_GetTransparent w (MeshRenderer_GetMaterial w b) in
  if negb (Bool.eqb ta tb) then tb
  else MeshRenderer_GetMaterial w a <? MeshRenderer_GetMaterial w b.

(** The lambda of [ComponentPool<Light>::Sort]: [a->GetType() > b->GetType()]. *)
Definition Light_less (w : World) (a b : addr) : bool :=
  (Light_GetType w b <? Light_GetType w a)%Z.

Definition Sort (T : PoolType) (s : State) : State :=
  match T with
  | OtherComponent => s
  | MeshRenderer =>
      {| allocated := Std.sort (MeshRenderer_less (world s)) (allocated s);
         unallocated := unallocated s;
         heap_next := heap_next s;
         world := world s |}
  | Light =>
      {| allocated := Std.sort (Light_less (world s)) (allocated s);
         unallocated := unallocated s;
         heap_next := heap_next s;
         world := world s |}
  end.

(** [if (unallocated.size() == 0) { for ... }] *)
Definition ensure_available (s : State) : State :=
  if length (unallocated s) =? 0 then refill POOL_SIZE s else s.

(** [ComponentPool<T>::Instantiate].  The source dereferences
    [component] at [Bind]; the result below is what the call returns for
    a front handle that is not null, and is not meant for a null one. *)
Definition Instantiate (T : PoolType) (gameEntity : addr) (s : State)
  : addr * State :=
  let s1 := ensure_available s in
  let component := front (unallocated s1) in
  let s2 := {| allocated := allocated s1 ++ [component];
               unallocated := pop (unallocated s1);
               heap_next := heap_next s1;
               world := IComponent_Bind component gameEntity (world s1) |} in
  (component, Sort T s2).

(** [allocated.erase(std::remove(allocated.begin(), allocated.end(), v),
    allocated.end())] *)
Fixpoint erase_remove (v : addr) (l : list addr) : list addr :=
  match l with
  | [] => []
  | x :: l' => if x =? v then erase_remove v l' else x :: erase_remove v l'
  end.

Definition Free (component : IComponentPtr) (s : State) : State :=
  {| allocated := erase_remove (dynamic_pointer_cast component) (allocated s);
     unallocated := unallocated s ++ [dynamic_pointer_cast component];
     heap_next := heap_next s;
     world := IComponent_Free (get component) (world s) |}.

(** [return allocated.size();] as an [int]: the conversion is exact for
    every size below 2^31 and is taken as exact. *)
Definition GetActiveCount (s : State) : Z := Z.of_nat (length (allocated s)).

Definition GetAll (s : State) : list addr := allocated s.

Definition GetAllEnabled (s : State) : list addr :=
  fold_left
    (fun enabled component =>
       if IComponent_IsEnabled (world s) component
       then enabled ++ [component] else enabled)
    (allocated s) [].

(** *** Callers: a sequence of pool operations, interleaved with whatever
    else the program does to the world in between (material swaps,
    transparency toggles, light edits). *)
Inductive Op : Type :=
| Acquire (gameEntity : addr)
| Release (component : IComponentPtr)
| Mutate (f : World -> World).

Definition step (T : PoolType) (s : State) (op : Op) : State :=
  match op with
  | Acquire e => snd (Instantiate T e s)
  | Release c => Free c s
  | Mutate f =>
      {| allocated := allocated s; unallocated := unallocated s;
         heap_next := heap_next s; world := f (world s) |}
  end.

Definition run (T : PoolType) (ops : list Op) (s : State) : State :=
  fold_left (step T) ops s.

(** *** The orderings the two [Sort] specialisations are there for *)

Definition transparent (w : World) (a : addr) : bool :=
  Material_GetTransparent w (MeshRenderer_GetMaterial w a).

(** Opaque first, then by material: an opaque component never sits at or
    after a transparent one, and among components of equal transparency
    the material addresses do not decrease from left to right. *)
Definition MeshRenderer_order (w : World) (l : list addr) : Prop :=
  forall i j a b,
    nth_error l i = Some a -> nth_error l j = Some b ->
    (transparent w a = false -> transparent w b = true -> i < j) /\
    (i <= j -> transparent w a = transparent w b ->
     MeshRenderer_GetMaterial w a <= MeshRenderer_GetMaterial w b).

(** Light types do not increase from left to right. *)
Definition Light_order (w : World) (l : list addr) : Prop :=
  forall i j a b,
    nth_error l i = Some a -> nth_error l j = Some b ->
    i <= j -> (Light_GetType w b <= Light_GetType w a)%Z.

(** Lights of one type sit next to each other. *)
Definition Light_grouped (w : World) (l : list addr) : Prop :=
  forall i j k a b c,
    nth_error l i = Some a -> nth_error l j = Some b -> nth_error l k = Some c ->
    i <= j -> j <= k ->
    Light_GetType w a = Light_GetType w c ->
    Light_GetType w b = Light_GetType w a.

Definition sort_invariant (T : PoolType) (w : World) (l : list addr) : Prop :=
  match T with
  | OtherComponent => True
  | MeshRenderer => MeshRenderer_order w l
  | Light => Light_order w l /\ Light_grouped w l
  end.

(** [w'] gives every component other than [h] the sort keys [w] gives it. *)
Definition keeps_sort_keys (h : addr) (w w' : World) : Prop :=
  forall x, x <> h ->
    MeshRenderer_GetMaterial w' x = MeshRenderer_GetMaterial w x /\
    transparent w' x = transparent w x /\
    Light_GetType w' x = Light_GetType w x.

(** The relations between an element and every later one that
    [MeshRenderer_order] and [Light_order] amount to. *)
Definition mesh_le (w : World) (a b : addr) : Prop :=
  (transparent w a = true -> transparent w b = true) /\
  (transparent w a = transparent w b ->
   MeshRenderer_GetMaterial w a <= MeshRenderer_GetMaterial w b).

Definition light_ge (w : World) (a b : addr) : Prop :=
  (Light_GetType w b <= Light_GetType w a)%Z.

(** *** Bookkeeping over a sequence of operations *)

(** No handle is held twice, in the active sequence, in the free queue
    or across the two, and every handle held came from [std::make_shared]. *)
Definition consistent (s : State) : Prop :=
  NoDup (allocated s ++ unallocated s) /\
  Forall (fun h => h < heap_next s) (allocated s ++ unallocated s).

Definition is_active (s : State) (c : IComponentPtr) : bool :=
  match c with
  | PtrT h => existsb (Nat.eqb h) (allocated s)
  | PtrOther _ => false
  end.

(** Every release in [ops], run from [s], is given a component that is in
    the active sequence at that moment. *)
Fixpoint releases_only_active (T : PoolType) (ops : list Op) (s : State) : bool :=
  match ops with
  | [] => true
  | op :: ops' =>
      match op with
      | Release c => is_active s c
      | _ => true
      end && releases_only_active T ops' (step T s op)
  end.

Fixpoint acquires (ops : list Op) : nat :=
  match ops with
  | [] => 0
  | Acquire _ :: ops' => S (acquires ops')
  | _ :: ops' => acquires ops'
  end.

Fixpoint releases (ops : list Op) : nat :=
  match ops with
  | [] => 0
  | Release _ :: ops' => S (releases ops')
  | _ :: ops' => releases ops'
  end.

End Pool.
End ComponentPool.

(** ** A small scene to run the pool on *)

Module Scene.
Import ComponentPool.

(** A component with the members IComponent.h declares and the sort keys
    of the two sorted pools. *)
Record Object : Type := {
  gameEntity : addr;
  enabled : bool;
  hierarchyIsEnabled : bool;
  material : addr;
  type : Z
}.

Record World : Type := {
  objects : addr -> Object;
  material_transparent : addr -> bool
}.

Definition update (a : addr) (o : Object) (w : World) : World :=
  {| objects := fun x => if x =? a then o else objects w x;
     material_transparent := material_transparent w |}.

Definition set_gameEntity (e : addr) (o : Object) : Object :=
  {| gameEntity := e; enabled := enabled o;
     hierarchyIsEnabled := hierarchyIsEnabled o;
     material := material o; type := type o |}.

#[export] Instance components : Components World := {|
  T_construct := fun a w => w;
  IComponent_Bind := fun a e w => update a (set_gameEntity e (objects w a)) w;
  IComponent_Free := fun a w => update a (set_gameEntity nullptr (objects w a)) w;
  IComponent_IsEnabled := fun w a =>
    enabled (objects w a) && hierarchyIsEnabled (objects w a);
  MeshRenderer_GetMaterial := fun w a => material (objects w a);
  Material_GetTransparent := fun w m => material_transparent w m;
  Light_GetType := fun w a => type (objects w a)
|}.

(** Components at odd addresses use material 20, which is transparent;
    those at even addresses use material 10, which is opaque.  The light
    type is the address modulo 3; components at multiples of 4 are
    disabled. *)
Definition scene0 : World :=
  {| objects := fun a =>
       {| gameEntity := nullptr;
          enabled := negb (a mod 4 =? 0);
          hierarchyIsEnabled := true;
          material := if Nat.odd a then 20 else 10;
          type := Z.of_nat (a mod 3) |};
     material_transparent := fun m => m =? 20 |}.

End Scene.

(** ** Game (Game.cpp): shadow passes, resize, loading screen *)

Module Game.

(** [enum MiscEffectSRVTypes] (Renderer.h) *)
Inductive MiscEffectSRVTypes : Type :=
| FLASHLIGHT_SHADOW
| ENV_SHADOW
| REFRACTION_SILHOUETTE_DEPTHS
| TRANSPARENT_PREPASS_DEPTHS
| RENDER_PREPASS_DEPTHS.

(** [enum AMLoadState] (AssetManager.h) *)
Inductive AMLoadState : Type :=
| INITIALIZING
| SINGLE_CREATION
| COMPLEX_CREATION
| SCENE_LOAD.

(** [struct LoadingNotifications].  [errorCode] is a [std::exception_ptr]:
    null, or an exception of class [std::exception] with its [what()]. *)
Record LoadingNotifications : Type := {
  category : string;
  object : string;
  errorCode : option string
}.

(** [AssetManager]: what [GetFlashlight()] and [GetLightAtID(i)] return,
    and the members the loading screen shares with the loader thread. *)
Record AssetManager : Type := {
  GetFlashlight : addr;
  GetLightAtID : Z -> addr;
  loaded : LoadingNotifications;
  assetManagerLoadState : AMLoadState;
  singleLoadComplete : bool
}.

(** The members of [Game] (and of its base [DXCore]) the modelled
    functions read or write.  [light_enabled p] is the [enabled] member of
    the [Light] at address [p] (1.0f or 0.0f in the source). *)
Record Game : Type := {
  width : Z;
  height : Z;
  mainCamera : addr;
  flashShadowCamera : addr;
  mainShadowCamera : addr;
  flashMenuToggle : bool;
  flickeringEnabled : bool;
  lightWindowEnabled : bool;
  lightUIIndex : Z;
  light_enabled : addr -> bool;
  globalAssets : AssetManager
}.

(** What the user does to the debug UI and the keyboard during one
    [Update]. *)
Record UserInput : Type := {
  click_lightEditor_Enabled : bool;
  click_menu_ToggleFlashlight : bool;
  key_ToggleFlashlight : bool;
  key_ToggleFlashlightFlicker : bool
}.

(** The one [float] the modelled code computes is the aspect ratio
    [(float)width / (float)height]; it is kept as that quotient. *)
Inductive float : Type :=
| float_div (w h : Z).

(** The calls [Game] makes on its collaborators, in the order it makes
    them. *)
Inductive Call : Type :=
| Camera_UpdateProjectionMatrix (camera : addr) (aspectRatio : float) (type : bool)
| Camera_UpdateViewMatrix (camera : addr)
| Renderer_PreResize
| DXCore_OnResize
| Renderer_PostResize (windowHeight windowWidth : Z)
| Renderer_RenderShadows (shadowCam : addr) (type : MiscEffectSRVTypes)
| Renderer_Draw (camera : addr)
| Mutex_lock
| ConditionVariable_wait_for (milliseconds : Z)
| Context_ClearRenderTargetView
| Context_ClearDepthStencilView
| SpriteBatch_Begin
| SpriteFont_DrawString (text : string)
| SpriteBatch_End
| SwapChain_Present
| Context_OMSetRenderTargets
| AssetManager_SetSingleLoadComplete (loadComplete : bool)
| Mutex_unlock
| ConditionVariable_notify_all.

Definition set_light_enabled (p : addr) (b : bool) (g : Game) : Game :=
  {| width := width g; height := height g; mainCamera := mainCamera g;
     flashShadowCamera := flashShadowCamera g;
     mainShadowCamera := mainShadowCamera g;
     flashMenuToggle := flashMenuToggle g;
     flickeringEnabled := flickeringEnabled g;
     lightWindowEnabled := lightWindowEnabled g;
     lightUIIndex := lightUIIndex g;
     light_enabled := fun q => if q =? p then b else light_enabled g q;
     globalAssets := globalAssets g |}.

Definition set_flashMenuToggle (b : bool) (g : Game) : Game :=
  {| width := width g; height := height g; mainCamera := mainCamera g;
     flashShadowCamera := flashShadowCamera g;
     mainShadowCamera := mainShadowCamera g;
     flashMenuToggle := b;
     flickeringEnabled := flickeringEnabled g;
     lightWindowEnabled := lightWindowEnabled g;
     lightUIIndex := lightUIIndex g;
     light_enabled := light_enabled g;
     globalAssets := globalAssets g |}.

Definition set_flickeringEnabled (b : bool) (g : Game) : Game :=
  {| width := width g; height := height g; mainCamera := mainCamera g;
     flashShadowCamera := flashShadowCamera g;
     mainShadowCamera := mainShadowCamera g;
     flashMenuToggle := flashMenuToggle g;
     flickeringEnabled := b;
     lightWindowEnabled := lightWindowEnabled g;
     lightUIIndex := lightUIIndex g;
     light_enabled := light_enabled g;
     globalAssets := globalAssets g |}.

(** [Game::RenderUI], as far as it writes the members above: the light
    editor's "Enabled" checkbox and the "Toggle Flashlight" menu item. *)
Definition RenderUI (ui : UserInput) (g : Game) : Game :=
  let g1 :=
    if lightWindowEnabled g then
      let currentLight := GetLightAtID (globalAssets g) (lightUIIndex g) in
      let lightEnabled :=
        xorb (light_enabled g currentLight) (click_lightEditor_Enabled ui) in
      set_light_enabled currentLight lightEnabled g
    else g in
  set_flashMenuToggle
    (xorb (flashMenuToggle g1) (click_menu_ToggleFlashlight ui)) g1.

(** [Game::FlickeringCheck] *)
Definition FlickeringCheck (ui : UserInput) (g : Game) : Game :=
  if key_ToggleFlashlightFlicker ui
  then set_flickeringEnabled (negb (flickeringEnabled g)) g
  else g.

(** [Game::Flashlight]; the float vectors it copies from the main camera
    to the flashlight and its shadow camera are left out. *)
Definition Flashlight (ui : UserInput) (g : Game) : Game * list Call :=
  let flashlight := GetFlashlight (globalAssets g) in
  let g1 :=
    if key_ToggleFlashlight ui
    then set_flashMenuToggle (negb (flashMenuToggle g)) g else g in
  let g2 :=
    if flashMenuToggle g1
    then set_light_enabled flashlight true g1
    else set_light_enabled flashlight false g1 in
  if flashMenuToggle g2
  then (FlickeringCheck ui g2, [Camera_UpdateViewMatrix (flashShadowCamera g2)])
  else (g2, []).

(** [Game::Update], as far as it reaches the members above: [RenderUI]
    first, [Flashlight] later, nothing in between or after that writes
    them. *)
Definition Update (ui : UserInput) (g : Game) : Game * list Call :=
  Flashlight ui (RenderUI ui g).

(** [Game::Draw] *)
Definition Draw (g : Game) : list Call :=
  (if flashMenuToggle g
   then [Renderer_RenderShadows (flashShadowCamera g) FLASHLIGHT_SHADOW]
   else [])
  ++ [Renderer_RenderShadows (mainShadowCamera g) ENV_SHADOW]
  ++ [Renderer_Draw (mainCamera g)].

(** One frame of the game loop: [Update], then [Draw]. *)
Definition Frame (ui : UserInput) (g : Game) : Game * list Call :=
  let (g1, calls) := Update ui g in
  (g1, calls ++ Draw g1).

(** [Game::OnResize]; [width] and [height] already hold the new client
    size when the window procedure calls it. *)
Definition OnResize (g : Game) : list Call :=
  (if negb (mainCamera g =? nullptr)
   then [Camera_UpdateProjectionMatrix (mainCamera g)
           (float_div (width g) (height g)) true]
   else [])
  ++ [Renderer_PreResize]
  ++ [DXCore_OnResize]
  ++ [Renderer_PostResize (height g) (width g)].

(** *** The loading screen *)

Definition set_singleLoadComplete (b : bool) (am : AssetManager) : AssetManager :=
  {| GetFlashlight := GetFlashlight am;
     GetLightAtID := GetLightAtID am;
     loaded := loaded am;
     assetManagerLoadState := assetManagerLoadState am;
     singleLoadComplete := b |}.

(** [notification->wait_for(lock, time(3000), pred)] with [pred] reading
    [singleLoadComplete]: it returns at once when [pred] already holds;
    otherwise it releases the lock and blocks, the loader thread does
    [during_wait] to the shared members, and the call returns what [pred]
    gives then (true: woken in time, false: timed out). *)
Definition wait_for (during_wait : AssetManager -> AssetManager)
  (am : AssetManager) : AssetManager * bool :=
  if singleLoadComplete am then (am, true)
  else let am' := during_wait am in (am', singleLoadComplete am').

(** The strings of one loading-screen frame. *)
Definition loadedCategoryString (am : AssetManager) : string :=
  ("Loading " ++ category (loaded am))%string.

Definition loadedObjectString (am : AssetManager) : string :=
  match errorCode (loaded am) with
  | Some _ =>
      ("Last Object: " ++ object (loaded am)
         ++ " Failed to Load! Error is printed to DBG console.")%string
  | None => ("Last Object Loaded: " ++ object (loaded am))%string
  end.

(** The body of the [if] in [DrawLoadingScreen]: one frame. *)
Definition loading_frame (am : AssetManager) : list Call :=
  [Context_ClearRenderTargetView;
   Context_ClearDepthStencilView;
   SpriteBatch_Begin;
   SpriteFont_DrawString "SHOE";
   SpriteFont_DrawString (loadedCategoryString am);
   SpriteFont_DrawString (loadedObjectString am);
   SpriteBatch_End;
   SwapChain_Present;
   Context_OMSetRenderTargets].

(** One iteration of the [while] loop of [DrawLoadingScreen]. *)
Definition DrawLoadingScreen_iteration
  (during_wait : AssetManager -> AssetManager) (am : AssetManager)
  : AssetManager * list Call :=
  let (am1, woken) := wait_for during_wait am in
  let frame := if woken then loading_frame am1 else [] in
  (set_singleLoadComplete false am1,
   [Mutex_lock; ConditionVariable_wait_for 3000]
   ++ frame
   ++ [AssetManager_SetSingleLoadComplete false;
       Mutex_unlock;
       ConditionVariable_notify_all]).

(** What the loader thread does around one iteration of the presenter:
    before the presenter tests the load state and takes the lock, and
    while the presenter waits. *)
Record LoaderTurn : Type := {
  before_test : AssetManager -> AssetManager;
  during_wait : AssetManager -> AssetManager
}.

(** [Game::DrawLoadingScreen] against a schedule of the loader; the
    presenter's calls are returned one list per iteration.  The loop ends
    when the load state is no longer [INITIALIZING]; a schedule that runs
    out first leaves the presenter at the loop test. *)
Fixpoint DrawLoadingScreen (schedule : list LoaderTurn) (am : AssetManager)
  : AssetManager * list (list Call) :=
  match schedule with
  | [] => (am, [])
  | turn :: schedule' =>
      let am0 := before_test turn am in
      match assetManagerLoadState am0 with
      | INITIALIZING =>
          let (am1, calls) := DrawLoadingScreen_iteration (during_wait turn) am0 in
          let (am2, rest) := DrawLoadingScreen schedule' am1 in
          (am2, calls :: rest)
      | _ => (am0, [])
      end
  end.

(** *** Reading a list of calls *)

Definition MiscEffectSRVTypes_eqb (a b : MiscEffectSRVTypes) : bool :=
  match a, b with
  | FLASHLIGHT_SHADOW, FLASHLIGHT_SHADOW
  | ENV_SHADOW, ENV_SHADOW
  | REFRACTION_SILHOUETTE_DEPTHS, REFRACTION_SILHOUETTE_DEPTHS
  | TRANSPARENT_PREPASS_DEPTHS, TRANSPARENT_PREPASS_DEPTHS
  | RENDER_PREPASS_DEPTHS, RENDER_PREPASS_DEPTHS => true
  | _, _ => false
  end.

Definition is_RenderShadows (t : MiscEffectSRVTypes) (c : Call) : bool :=
  match c with
  | Renderer_RenderShadows _ t' => MiscEffectSRVTypes_eqb t t'
  | _ => false
  end.

(** How many times the shadow map [t] is rendered in [calls]. *)
Definition shadow_passes (t : MiscEffectSRVTypes) (calls : list Call) : nat :=
  length (filter (is_RenderShadows t) calls).

Definition is_Present (c : Call) : bool :=
  match c with SwapChain_Present => true | _ => false end.

(** How many frames [calls] puts on the screen. *)
Definition frames_presented (calls : list Call) : nat :=
  length (filter is_Present calls).

Definition is_wait_for (c : Call) : bool :=
  match c with ConditionVariable_wait_for _ => true | _ => false end.

(** [x] is called, and [y] is called later. *)
Definition before (x y : Call) (calls : list Call) : Prop :=
  exists l1 l2 l3, calls = l1 ++ x :: l2 ++ y :: l3.

(** *** A game to run on *)

(** The 1280 by 720 window of [Game::Game], five lights at addresses 10
    to 14 of which the last is the flashlight, every light disabled, the
    loader still initializing. *)
Definition game0 : Game :=
  {| width := 1280; height := 720;
     mainCamera := 1; flashShadowCamera := 2; mainShadowCamera := 3;
     flashMenuToggle := false; flickeringEnabled := false;
     lightWindowEnabled := false; lightUIIndex := 0;
     light_enabled := fun _ => false;
     globalAssets :=
       {| GetFlashlight := 14;
          GetLightAtID := fun i => 10 + Z.to_nat i;
          loaded := {| category := "Meshes"; object := "Cube";
                       errorCode := None |};
          assetManagerLoadState := INITIALIZING;
          singleLoadComplete := false |} |}.

(** The user touches nothing. *)
Definition idle : UserInput :=
  {| click_lightEditor_Enabled := false;
     click_menu_ToggleFlashlight := false;
     key_ToggleFlashlight := false;
     key_ToggleFlashlightFlicker := false |}.

End Game.

(** ** The index arrows of the debug UI and [Game::RenderSky] (Game.cpp) *)

Module GameUI.
Local Open Scope Z_scope.

(** [int] is 32 bits wide and [size_t] 64 (the x64 build).  A conversion
    to [size_t] reduces modulo 2^64; a conversion to [int], and [int]
    arithmetic that leaves the range, wrap around as the target does. *)
Definition INT_MAX : Z := 2 ^ 31 - 1.

Definition to_int (z : Z) : Z := (z + 2 ^ 31) mod 2 ^ 32 - 2 ^ 31.

Definition to_size_t (z : Z) : Z := z mod 2 ^ 64.

(** [index++; if (index > size - 1) index = 0;] with [index] an [int] and
    [size] a [size_t]: the subtraction and the comparison are done in
    [size_t].  This is the "Next" arrow of the sky, object and camera
    editors and the right-arrow key of [RenderSky]. *)
Definition next_index (index size : Z) : Z :=
  let index := to_int (index + 1) in
  if to_size_t index >? to_size_t (size - 1) then 0 else index.

(** [index--; if (index < 0) index = size - 1;]: the "Previous" arrow
    and the left-arrow key. *)
Definition previous_index (index size : Z) : Z :=
  let index := to_int (index - 1) in
  if index <? 0 then to_int (to_size_t (size - 1)) else index.

(** [v.size()] *)
Definition size (v : list addr) : Z := Z.of_nat (length v).

(** [v.at(pos)]: the element, or [std::out_of_range] ([None]). *)
Definition at_ (v : list addr) (pos : Z) : option addr :=
  if pos <? size v then nth_error v (Z.to_nat pos) else None.

(** The members [RenderSky] uses: [skyUIIndex] and the vector [skies]
    points to. *)
Record Skies : Type := {
  skyUIIndex : Z;
  skies : list addr
}.

(** How [RenderSky] ends: with [renderer->SetActiveSky(sky)], or with the
    exception [skies->at] throws. *)
Inductive RenderSkyResult : Type :=
| SetActiveSky (sky : addr)
| out_of_range.

(** [Game::RenderSky]; [right] and [left] are [input.KeyPress(VK_RIGHT)]
    and [input.KeyPress(VK_LEFT)]. *)
Definition RenderSky (right left : bool) (s : Skies) : Skies * RenderSkyResult :=
  let index :=
    if right then next_index (skyUIIndex s) (size (skies s))
    else if left then previous_index (skyUIIndex s) (size (skies s))
    else skyUIIndex s in
  ({| skyUIIndex := index; skies := skies s |},
   match at_ (skies s) (to_size_t index) with
   | Some sky => SetActiveSky sky
   | None => out_of_range
   end).

(** Five skies, as [Game] declares them, and the first one selected. *)
Definition skies0 : Skies :=
  {| skyUIIndex := 0; skies := [31; 32; 33; 34; 35]%nat |}.

End GameUI.

(** ** CollisionManager (CollisionManager.cpp) *)

Module CollisionManager.

(** The two static vectors. *)
Record State : Type := {
  markedAsTriggerboxes_ : list addr;
  markedAsColliders_ : list addr
}.

(** [CollisionManager::CollisionManager()] *)
Definition constructor : State :=
  {| markedAsTriggerboxes_ := []; markedAsColliders_ := [] |}.

Section Colliders.
(** [collider->GetTriggerStatus()] (Collider.h) *)
Variable GetTriggerStatus : addr -> bool.

(** [CollisionManager::AddColliderToManager] *)
Definition AddColliderToManager (_c : addr) (s : State) : State :=
  if Bool.eqb (GetTriggerStatus _c) true
  then {| markedAsTriggerboxes_ := markedAsTriggerboxes_ s ++ [_c];
          markedAsColliders_ := markedAsColliders_ s |}
  else {| markedAsTriggerboxes_ := markedAsTriggerboxes_ s;
          markedAsColliders_ := markedAsColliders_ s ++ [_c] |}.

(** Registering a list of colliders, one call each. *)
Definition AddAll (cs : list addr) (s : State) : State :=
  fold_left (fun s _c => AddColliderToManager _c s) cs s.

(** The inner loop of [CollisionManager::Update] for one [a]: the pairs
    whose bounding boxes it tests with [Intersects], in order.  The test
    is the last operand of [&&] and is only reached when the operands
    before it hold. *)
Fixpoint Update_inner (a : addr) (c : list addr) : list (addr * addr) :=
  match c with
  | [] => []
  | b :: c' =>
      (if a =? b then []
       else if negb (GetTriggerStatus a) && GetTriggerStatus b
            then [(a, b)] else [])
      ++ Update_inner a c'
  end.

(** The outer loop, over the first [rest] of the vector [c]. *)
Fixpoint Update_outer (rest c : list addr) : list (addr * addr) :=
  match rest with
  | [] => []
  | a :: rest' => Update_inner a c ++ Update_outer rest' c
  end.

(** [CollisionManager::Update], given the vector
    [ComponentManager::GetAllEnabled<Collider>()] returns: the bounding
    box tests it makes.  It writes nothing. *)
Definition Update (c : list addr) : list (addr * addr) :=
  Update_outer c c.

(** The inner loop of [CheckTriggerCollisions] for one triggerbox. *)
Fixpoint CheckTrigger_inner (t : addr) (colliders : list addr) : list (addr * addr) :=
  match colliders with
  | [] => []
  | c :: colliders' => (t, c) :: CheckTrigger_inner t colliders'
  end.

Fixpoint CheckTrigger_outer (triggerboxes colliders : list addr) : list (addr * addr) :=
  match triggerboxes with
  | [] => []
  | t :: triggerboxes' =>
      CheckTrigger_inner t colliders ++ CheckTrigger_outer triggerboxes' colliders
  end.

(** [CollisionManager::CheckTriggerCollisions]: the bounding box tests it
    makes, triggerbox first. *)
Definition CheckTriggerCollisions (s : State) : list (addr * addr) :=
  CheckTrigger_outer (markedAsTriggerboxes_ s) (markedAsColliders_ s).

End Colliders.

(** Colliders at even addresses are triggerboxes. *)
Definition even_triggers (a : addr) : bool := Nat.even a.

End CollisionManager.

(** * Properties *)

(** ** Lists *)

Module ListFacts.

Lemma StronglySorted_nth_error (A : Type) (R : A -> A -> Prop) (l : list A) :
  StronglySorted R l <->
  (forall i j a b, i < j -> nth_error l i = Some a -> nth_error l j = Some b -> R a b).
Proof.
  induction l as [|x l IH].
  - split; [|constructor].
    intros _ i j a b _ Hi. now destruct i.
  - split.
    + intros Hs. apply StronglySorted_inv in Hs as [Hl Hx].
      intros i j a b Hij Hi Hj.
      destruct j as [|j]; [lia|]. simpl in Hj.
      destruct i as [|i]; simpl in Hi.
      * injection Hi as <-. rewrite Forall_forall in Hx.
        apply Hx. eapply nth_error_In; eassumption.
      * destruct IH as [IH _]. apply (IH Hl i j); [lia|assumption..].
    + intros H. constructor.
      * apply IH. intros i j a b Hij Hi Hj.
        apply (H (S i) (S j)); [lia|assumption..].
      * apply Forall_forall. intros y Hy.
        apply In_nth_error in Hy as [n Hn].
        apply (H 0 (S n)); [lia|reflexivity|assumption].
Qed.

Lemma StronglySorted_filter (A : Type) (R : A -> A -> Prop) (f : A -> bool) (l : list A) :
  StronglySorted R l -> StronglySorted R (filter f l).
Proof.
  induction 1 as [|x l Hl IH Hx]; simpl; [constructor|].
  destruct (f x); [|assumption].
  constructor; [assumption|].
  rewrite Forall_forall in Hx |- *. intros y Hy.
  apply filter_In in Hy as [Hy _]. now apply Hx.
Qed.

Lemma StronglySorted_impl (A : Type) (R Q : A -> A -> Prop) (l : list A) :
  (forall a b, In a l -> In b l -> R a b -> Q a b) ->
  StronglySorted R l -> StronglySorted Q l.
Proof.
  intros HRQ Hs. induction Hs as [|x l Hl IH Hx]; [constructor|].
  constructor.
  - apply IH. intros a b Ha Hb. apply HRQ; now right.
  - rewrite Forall_forall in Hx |- *. intros y Hy.
    apply HRQ; [now left | now right | now apply Hx].
Qed.

Lemma NoDup_app_disjoint (A : Type) (l1 l2 : list A) (a : A) :
  NoDup (l1 ++ l2) -> In a l1 -> In a l2 -> False.
Proof.
  induction l1 as [|x l1 IH]; simpl; intros Hnd H1 H2; [assumption|].
  apply NoDup_cons_iff in Hnd as [Hx Hnd].
  destruct H1 as [->|H1]; [|now apply IH].
  apply Hx, in_or_app. now right.
Qed.

End ListFacts.

(** ** std::sort *)

Module StdFacts.
Import Std.

(** A comparator that orders by a boolean key first (false before true)
    and by a number second is a strict weak ordering. *)
Lemma lexicographic_swo (A : Type) (t : A -> bool) (m : A -> nat) :
  StrictWeakOrder
    (fun a b => if negb (Bool.eqb (t a) (t b)) then t b else m a <? m b).
Proof.
  split.
  - intros a. rewrite Bool.eqb_reflx. simpl. apply Nat.ltb_irrefl.
  - intros a b c.
    destruct (t a), (t b), (t c); simpl; try congruence.
    all: rewrite !Nat.ltb_lt; lia.
  - intros a b c.
    destruct (t a), (t b), (t c); simpl; try congruence.
    all: rewrite !Nat.ltb_ge; lia.
Qed.

(** So is "greater than" on an integer key. *)
Lemma descending_swo (A : Type) (k : A -> Z) :
  StrictWeakOrder (fun a b => (k b <? k a)%Z).
Proof.
  split.
  - intros a. apply Z.ltb_irrefl.
  - intros a b c. rewrite !Z.ltb_lt. lia.
  - intros a b c. rewrite !Z.ltb_ge. lia.
Qed.

(** Insertion sort is a [std::sort]. *)
Section Insertion.
Variable A : Type.
Variable comp : A -> A -> bool.

Lemma insert_perm x l : Permutation (x :: l) (insert comp x l).
Proof.
  induction l as [|y l IH]; simpl; [reflexivity|].
  destruct (comp x y); [reflexivity|].
  rewrite perm_swap. now apply perm_skip.
Qed.

Lemma insertion_sort_perm l : Permutation l (insertion_sort comp l).
Proof.
  induction l as [|x l IH]; simpl; [constructor|].
  rewrite <- insert_perm. now apply perm_skip.
Qed.

Hypothesis Hswo : StrictWeakOrder comp.

Lemma insert_sorted x l : is_sorted comp l -> is_sorted comp (insert comp x l).
Proof.
  unfold is_sorted.
  induction l as [|y l IH]; simpl; intros Hs.
  - repeat constructor.
  - apply StronglySorted_inv in Hs as [Hl Hy].
    destruct (comp x y) eqn:Hxy.
    + constructor; [now constructor|].
      constructor.
      * destruct (comp y x) eqn:Hyx; [|reflexivity].
        pose proof (swo_trans Hswo _ _ _ Hxy Hyx) as H.
        now rewrite (swo_irrefl Hswo) in H.
      * rewrite Forall_forall in Hy |- *. intros z Hz.
        destruct (comp z x) eqn:Hzx; [|reflexivity].
        pose proof (swo_trans Hswo _ _ _ Hzx Hxy) as H.
        now rewrite (Hy z Hz) in H.
    + constructor; [now apply IH|].
      rewrite Forall_forall in Hy |- *. intros z Hz.
      apply (Permutation_in _ (Permutation_sym (insert_perm x l))) in Hz.
      destruct Hz as [<-|Hz]; [assumption | now apply Hy].
Qed.

Lemma insertion_sort_sorted l : is_sorted comp (insertion_sort comp l).
Proof.
  induction l as [|x l IH]; simpl; [constructor | now apply insert_sorted].
Qed.
End Insertion.

#[export] Instance insertion_sorter : Sorter := {|
  sort := insertion_sort;
  sort_permutes := fun A comp l _ => insertion_sort_perm comp l;
  sort_sorts := fun A comp l H => insertion_sort_sorted H l
|}.

End StdFacts.

(** ** ComponentPool<T> *)

Module PoolFacts.
Import ComponentPool.

Section Facts.
Context {World : Type} {C : Components World} {std : Std.Sorter}.

(** *** The comparators and the orderings *)

Lemma MeshRenderer_less_swo (w : World) : Std.StrictWeakOrder (MeshRenderer_less w).
Proof.
  exact (StdFacts.lexicographic_swo (transparent w) (MeshRenderer_GetMaterial w)).
Qed.

Lemma Light_less_swo (w : World) : Std.StrictWeakOrder (Light_less w).
Proof.
  exact (StdFacts.descending_swo (Light_GetType w)).
Qed.

Lemma MeshRenderer_less_mesh_le w a b :
  MeshRenderer_less w b a = false -> mesh_le w a b.
Proof.
  unfold MeshRenderer_less, mesh_le, transparent.
  destruct (Material_GetTransparent w (MeshRenderer_GetMaterial w a)),
           (Material_GetTransparent w (MeshRenderer_GetMaterial w b));
    simpl; intros H; split; try congruence; intros _;
    apply Nat.ltb_ge; assumption.
Qed.

Lemma MeshRenderer_order_iff w l :
  MeshRenderer_order w l <-> StronglySorted (mesh_le w) l.
Proof.
  rewrite ListFacts.StronglySorted_nth_error. unfold MeshRenderer_order, mesh_le.
  split.
  - intros H i j a b Hij Hi Hj. split.
    + intros Ha. destruct (transparent w b) eqn:Hb; [reflexivity|].
      destruct (H j i b a Hj Hi) as [H1 _]. specialize (H1 Hb Ha). lia.
    + apply (H i j a b Hi Hj). lia.
  - intros H i j a b Hi Hj. split.
    + intros Ha Hb.
      destruct (lt_eq_lt_dec i j) as [[Hlt|Heq]|Hgt]; [assumption| |].
      * subst j. congruence.
      * destruct (H j i b a Hgt Hj Hi) as [H1 _]. specialize (H1 Hb). congruence.
    + intros Hij Hab.
      destruct (Nat.eq_dec i j) as [Heq|Hne].
      * subst j. assert (a = b) by congruence. subst b. lia.
      * apply (H i j a b); [lia|assumption..].
Qed.

Lemma Light_order_iff w l :
  Light_order w l <-> StronglySorted (light_ge w) l.
Proof.
  rewrite ListFacts.StronglySorted_nth_error. unfold Light_order, light_ge.
  split.
  - intros H i j a b Hij Hi Hj. apply (H i j a b); [assumption..|lia].
  - intros H i j a b Hi Hj Hij.
    destruct (Nat.eq_dec i j) as [Heq|Hne].
    + subst j. assert (a = b) by congruence. subst b. lia.
    + apply (H i j a b); [lia|assumption..].
Qed.

Lemma Light_order_grouped w l : Light_order w l -> Light_grouped w l.
Proof.
  intros H i j k a b c Hi Hj Hk Hij Hjk Hac.
  pose proof (H i j a b Hi Hj Hij). pose proof (H j k b c Hj Hk Hjk). lia.
Qed.

Lemma sorted_MeshRenderer_order w l :
  Std.is_sorted (MeshRenderer_less w) l -> MeshRenderer_order w l.
Proof.
  intros H. apply MeshRenderer_order_iff.
  apply (ListFacts.StronglySorted_impl (R := fun a b => MeshRenderer_less w b a = false));
    [|exact H].
  intros a b _ _. apply MeshRenderer_less_mesh_le.
Qed.

Lemma sorted_Light_order w l :
  Std.is_sorted (Light_less w) l -> Light_order w l.
Proof.
  intros H. apply Light_order_iff.
  apply (ListFacts.StronglySorted_impl (R := fun a b => Light_less w b a = false));
    [|exact H].
  intros a b _ _. unfold Light_less, light_ge. apply Z.ltb_ge.
Qed.

(** *** [Sort] *)

Lemma Sort_frame T (s : @State World) :
  unallocated (Sort T s) = unallocated s /\
  heap_next (Sort T s) = heap_next s /\
  world (Sort T s) = world s.
Proof. destruct T; simpl; auto. Qed.

Lemma Sort_permutes T (s : @State World) :
  Permutation (allocated s) (allocated (Sort T s)).
Proof.
  destruct T; simpl.
  - reflexivity.
  - apply Std.sort_permutes, MeshRenderer_less_swo.
  - apply Std.sort_permutes, Light_less_swo.
Qed.

Lemma Sort_establishes T (s : @State World) :
  sort_invariant T (world (Sort T s)) (allocated (Sort T s)).
Proof.
  destruct T; simpl.
  - exact I.
  - apply sorted_MeshRenderer_order, Std.sort_sorts, MeshRenderer_less_swo.
  - assert (Light_order (world s) (Std.sort (Light_less (world s)) (allocated s))) as H
      by apply sorted_Light_order, Std.sort_sorts, Light_less_swo.
    split; [exact H | now apply Light_order_grouped].
Qed.

(** *** [Instantiate] *)

Lemma refill_spec n (s : @State World) :
  allocated (refill n s) = allocated s /\
  unallocated (refill n s) = unallocated s ++ seq (heap_next s) n /\
  heap_next (refill n s) = heap_next s + n.
Proof.
  revert s. induction n as [|n IH]; intros s; simpl.
  - rewrite app_nil_r. auto.
  - destruct (IH (push_new s)) as (Ha & Hu & Hn). simpl in *.
    rewrite Ha, Hu, Hn, <- app_assoc. simpl. repeat split. lia.
Qed.

Lemma ensure_available_empty (s : @State World) :
  unallocated s = [] ->
  allocated (ensure_available s) = allocated s /\
  unallocated (ensure_available s) = seq (heap_next s) POOL_SIZE /\
  heap_next (ensure_available s) = heap_next s + POOL_SIZE /\
  world (ensure_available s) = world (refill POOL_SIZE s).
Proof.
  intros Hq. unfold ensure_available. rewrite Hq.
  change (length (@nil addr) =? 0) with true. cbv iota.
  destruct (refill_spec POOL_SIZE s) as (Ha & Hu & Hn).
  rewrite Ha, Hu, Hn, Hq. auto.
Qed.

Lemma ensure_available_nonempty (s : @State World) c q :
  unallocated s = c :: q -> ensure_available s = s.
Proof.
  intros Hq. unfold ensure_available. now rewrite Hq.
Qed.

(** [front()] is never called on an empty queue. *)
Lemma ensure_available_front (s : @State World) :
  unallocated (ensure_available s) <> [].
Proof.
  destruct (unallocated s) as [|c q] eqn:Hq.
  - destruct (ensure_available_empty s Hq) as (_ & Hu & _).
    rewrite Hu. discriminate.
  - rewrite (ensure_available_nonempty s Hq), Hq. discriminate.
Qed.

Lemma Instantiate_spec T e (s : @State World) :
  exists c q,
    unallocated (ensure_available s) = c :: q /\
    Instantiate T e s =
      (c, Sort T {| allocated := allocated (ensure_available s) ++ [c];
                    unallocated := q;
                    heap_next := heap_next (ensure_available s);
                    world := IComponent_Bind c e (world (ensure_available s)) |}).
Proof.
  destruct (unallocated (ensure_available s)) as [|c q] eqn:Hq.
  - now destruct (ensure_available_front s).
  - exists c, q. split; [reflexivity|].
    unfold Instantiate. now rewrite Hq.
Qed.

Lemma Instantiate_establishes T e (s : @State World) :
  let s' := snd (Instantiate T e s) in
  sort_invariant T (world s') (allocated s').
Proof.
  destruct (Instantiate_spec T e s) as (c & q & _ & ->).
  apply Sort_establishes.
Qed.

Lemma run_app T (ops1 ops2 : list (@Op World)) s :
  run T (ops1 ++ ops2) s = run T ops2 (run T ops1 s).
Proof. apply fold_left_app. Qed.

(** C1.  Whatever acquires, releases and changes to the scene came
    before, right after an acquire on the [MeshRenderer] pool the active
    sequence has every component with an opaque material before every
    component with a transparent one, and within each of the two groups
    the material addresses never decrease. *)
Theorem MeshRenderer_pool_ordered_after_Instantiate :
  forall (s0 : @State World) (ops : list Op) (gameEntity : addr),
    let s := run MeshRenderer (ops ++ [Acquire gameEntity]) s0 in
    MeshRenderer_order (world s) (allocated s).
Proof.
  intros s0 ops e. rewrite run_app.
  exact (Instantiate_establishes MeshRenderer e (run MeshRenderer ops s0)).
Qed.

(** C2.  Whatever acquires, releases and changes to the scene came
    before, right after an acquire on the [Light] pool the light types
    along the active sequence never increase (descending type value), so
    that the lights of each type are contiguous. *)
Theorem Light_pool_grouped_after_Instantiate :
  forall (s0 : @State World) (ops : list Op) (gameEntity : addr),
    let s := run Light (ops ++ [Acquire gameEntity]) s0 in
    Light_order (world s) (allocated s) /\
    Light_grouped (world s) (allocated s).
Proof.
  intros s0 ops e. rewrite run_app.
  exact (Instantiate_establishes Light e (run Light ops s0)).
Qed.

(** C4.  With an empty free queue [Instantiate] makes exactly 32 new
    instances (the allocator advances by 32, and no instance below the
    old mark is involved), returns the first of them and leaves the
    other 31 in the free queue; with a non-empty free queue it makes
    none and returns the front of the queue. *)
Theorem Instantiate_allocates_one_batch_iff_exhausted :
  forall (T : PoolType) (gameEntity : addr) (s : @State World),
    let c := fst (Instantiate T gameEntity s) in
    let s' := snd (Instantiate T gameEntity s) in
    match unallocated s with
    | [] =>
        heap_next s' = heap_next s + 32 /\
        c :: unallocated s' = seq (heap_next s) 32 /\
        length (unallocated s') = 31
    | c0 :: rest =>
        heap_next s' = heap_next s /\
        c = c0 /\
        unallocated s' = rest
    end.
Proof.
  intros T e s.
  destruct (Instantiate_spec T e s) as (c & q & Hq & ->).
  cbv zeta. unfold fst, snd.
  match goal with |- context [Sort T ?x] =>
    destruct (Sort_frame T x) as (-> & -> & _) end.
  cbn [unallocated heap_next].
  destruct (unallocated s) as [|c0 q0] eqn:Hs.
  - destruct (ensure_available_empty s Hs) as (_ & Hu & Hn & _).
    rewrite Hn. rewrite Hu in Hq. split; [reflexivity|].
    split; [symmetry; exact Hq|].
    apply (f_equal (@length _)) in Hq. rewrite length_seq in Hq.
    simpl in Hq. unfold POOL_SIZE in Hq. lia.
  - rewrite (ensure_available_nonempty s Hs) in Hq |- *.
    rewrite Hs in Hq. injection Hq as -> ->. auto.
Qed.

(** *** The queries *)

Lemma fold_emplace_back_filter (f : addr -> bool) (l acc : list addr) :
  fold_left (fun enabled c => if f c then enabled ++ [c] else enabled) l acc
  = acc ++ filter f l.
Proof.
  revert acc. induction l as [|x l IH]; intros acc; simpl.
  - now rewrite app_nil_r.
  - rewrite IH. destruct (f x); [|reflexivity].
    now rewrite <- app_assoc.
Qed.

(** C6.  [GetAll] returns the active sequence, [GetActiveCount] its
    length, and [GetAllEnabled] the components of the active sequence
    for which [IsEnabled] holds, in the order they have there. *)
Theorem queries_report_the_active_sequence :
  forall s : @State World,
    GetAll s = allocated s /\
    GetActiveCount s = Z.of_nat (length (GetAll s)) /\
    GetAllEnabled s = filter (IComponent_IsEnabled (world s)) (allocated s).
Proof.
  intros s. repeat split.
  unfold GetAllEnabled. now rewrite fold_emplace_back_filter.
Qed.

(** *** Counting and disjointness *)

Lemma erase_remove_filter (v : addr) (l : list addr) :
  erase_remove v l = filter (fun x => negb (x =? v)) l.
Proof.
  induction l as [|x l IH]; simpl; [reflexivity|].
  rewrite IH. now destruct (x =? v).
Qed.

Lemma erase_remove_absent (v : addr) (l : list addr) :
  ~ In v l -> erase_remove v l = l.
Proof.
  induction l as [|x l IH]; simpl; intros H; [reflexivity|].
  destruct (Nat.eqb_spec x v) as [->|_].
  - exfalso. apply H. now left.
  - f_equal. apply IH. intros Hv. apply H. now right.
Qed.

Lemma erase_remove_perm (h : addr) (l : list addr) :
  NoDup l -> In h l -> Permutation l (h :: erase_remove h l).
Proof.
  induction l as [|x l IH]; simpl; intros Hnd Hin; [contradiction|].
  apply NoDup_cons_iff in Hnd as [Hx Hnd].
  destruct (Nat.eqb_spec x h) as [->|Hne].
  - now rewrite erase_remove_absent.
  - destruct Hin as [->|Hin]; [congruence|].
    rewrite perm_swap. apply perm_skip. now apply IH.
Qed.

Lemma consistent_init (w : World) : consistent (init w).
Proof. split; constructor. Qed.

Lemma push_new_consistent (s : @State World) :
  consistent s -> consistent (push_new s).
Proof.
  intros [Hnd Hlt]. unfold consistent. simpl. rewrite app_assoc. split.
  - apply NoDup_app; [assumption|repeat constructor; intros []|].
    intros a Ha [<-|[]]. rewrite Forall_forall in Hlt.
    specialize (Hlt _ Ha). lia.
  - apply Forall_app. split.
    + eapply Forall_impl; [|exact Hlt]. simpl. lia.
    + repeat constructor.
Qed.

Lemma refill_consistent n (s : @State World) :
  consistent s -> consistent (refill n s).
Proof.
  revert s. induction n as [|n IH]; intros s Hs; [assumption|].
  apply IH, push_new_consistent, Hs.
Qed.

Lemma ensure_available_consistent (s : @State World) :
  consistent s -> consistent (ensure_available s).
Proof.
  intros Hs. unfold ensure_available.
  destruct (length (unallocated s) =? 0); [now apply refill_consistent|assumption].
Qed.

Lemma Sort_consistent T (s : @State World) :
  consistent s -> consistent (Sort T s).
Proof.
  intros [Hnd Hlt]. destruct (Sort_frame T s) as (Hu & Hn & _).
  pose proof (Permutation_app_tail (unallocated s) (Sort_permutes T s)) as Hp.
  unfold consistent. rewrite Hu, Hn. split.
  - eapply Permutation_NoDup; eassumption.
  - eapply Permutation_Forall; eassumption.
Qed.

Lemma Instantiate_consistent T e (s : @State World) :
  consistent s -> consistent (snd (Instantiate T e s)).
Proof.
  intros Hs. apply ensure_available_consistent in Hs.
  destruct (Instantiate_spec T e s) as (c & q & Hq & ->).
  apply Sort_consistent. unfold consistent in *. simpl.
  rewrite Hq in Hs. now rewrite <- app_assoc.
Qed.

Lemma Instantiate_length T e (s : @State World) :
  length (allocated (snd (Instantiate T e s))) = S (length (allocated s)).
Proof.
  destruct (Instantiate_spec T e s) as (c & q & Hq & ->). simpl.
  rewrite <- (Permutation_length (Sort_permutes T _)). simpl.
  rewrite length_app. simpl.
  assert (allocated (ensure_available s) = allocated s) as ->; [|lia].
  unfold ensure_available.
  destruct (length (unallocated s) =? 0); [apply refill_spec|reflexivity].
Qed.

Lemma is_active_In (s : @State World) c :
  is_active s c = true -> exists h, c = PtrT h /\ In h (allocated s).
Proof.
  destruct c as [h|h]; simpl; [|discriminate].
  intros H. exists h. split; [reflexivity|].
  apply existsb_exists in H as (x & Hx & Heq).
  apply Nat.eqb_eq in Heq. now subst.
Qed.

Lemma Free_consistent (s : @State World) h :
  consistent s -> In h (allocated s) -> consistent (Free (PtrT h) s).
Proof.
  intros [Hnd Hlt] Hin.
  assert (Permutation (allocated s ++ unallocated s)
            (erase_remove h (allocated s) ++ unallocated s ++ [h])) as Hp.
  { assert (Permutation (allocated s) (h :: erase_remove h (allocated s))) as Hr
      by (apply erase_remove_perm; [eapply NoDup_app_remove_r; exact Hnd|exact Hin]).
    rewrite Hr at 1. simpl. rewrite app_assoc. apply Permutation_cons_append. }
  unfold consistent. simpl. split.
  - eapply Permutation_NoDup; eassumption.
  - eapply Permutation_Forall; eassumption.
Qed.

Lemma Free_length (s : @State World) h :
  consistent s -> In h (allocated s) ->
  S (length (allocated (Free (PtrT h) s))) = length (allocated s).
Proof.
  intros [Hnd _] Hin. simpl.
  assert (Permutation (allocated s) (h :: erase_remove h (allocated s))) as Hr
    by (apply erase_remove_perm; [eapply NoDup_app_remove_r; exact Hnd|exact Hin]).
  now rewrite (Permutation_length Hr).
Qed.

Lemma run_counts T (ops : list Op) (s : @State World) :
  consistent s ->
  releases_only_active T ops s = true ->
  consistent (run T ops s) /\
  (GetActiveCount (run T ops s)
   = GetActiveCount s + Z.of_nat (acquires ops) - Z.of_nat (releases ops))%Z.
Proof.
  revert s. induction ops as [|op ops IH]; intros s Hs Hok.
  - simpl. split; [assumption|lia].
  - simpl in Hok. apply andb_prop in Hok as [Hop Hok].
    assert (consistent (step T s op) /\
            (GetActiveCount (step T s op)
             = GetActiveCount s
               + Z.of_nat (acquires [op]) - Z.of_nat (releases [op]))%Z)
      as [Hs' Hc].
    { unfold GetActiveCount. destruct op as [e|c|f]; cbn [step acquires releases].
      - split; [now apply Instantiate_consistent|].
        rewrite Instantiate_length. lia.
      - apply is_active_In in Hop as (h & -> & Hin).
        split; [now apply Free_consistent|].
        pose proof (@Free_length s h Hs Hin). lia.
      - split; [exact Hs|]. simpl. lia. }
    destruct (IH _ Hs' Hok) as [Hfin Hcount].
    change (run T (op :: ops) s) with (run T ops (step T s op)).
    split; [assumption|]. rewrite Hcount, Hc.
    destruct op; simpl; lia.
Qed.

(** C3.  Start from the empty pool and run any interleaving of acquires
    and releases (and changes to the scene) in which every release is
    given a component that is active at that moment.  Then
    [GetActiveCount] is the number of acquires minus the number of
    releases, and no handle is in the active sequence and in the free
    queue at once.  Every prefix of such a run is such a run, so this
    holds after each operation. *)
Theorem active_count_and_disjointness :
  forall (T : PoolType) (w : World) (ops : list Op),
    releases_only_active T ops (init w) = true ->
    let s := run T ops (init w) in
    GetActiveCount s = (Z.of_nat (acquires ops) - Z.of_nat (releases ops))%Z /\
    (forall h, In h (allocated s) -> In h (unallocated s) -> False).
Proof.
  intros T w ops Hok.
  destruct (@run_counts T ops (init w) (consistent_init w) Hok) as [[Hnd _] Hcount].
  split.
  - rewrite Hcount. unfold GetActiveCount. simpl. lia.
  - intros h. now apply ListFacts.NoDup_app_disjoint.
Qed.

(** *** [Free] *)

(** C5, as the code has it.  [Free] tests nothing and signals nothing.
    Given a component that is not in the active sequence it leaves the
    active sequence as it is and appends the handle to the free queue;
    keeping such calls away is left to the caller. *)
Theorem Free_of_inactive_handle_enqueues_it :
  forall (s : @State World) (component : IComponentPtr),
    ~ In (dynamic_pointer_cast component) (allocated s) ->
    allocated (Free component s) = allocated s /\
    unallocated (Free component s)
    = unallocated s ++ [dynamic_pointer_cast component] /\
    heap_next (Free component s) = heap_next s.
Proof.
  intros s c Hin. simpl. now rewrite erase_remove_absent.
Qed.

Lemma sort_invariant_filter T (w : World) (f : addr -> bool) (l : list addr) :
  sort_invariant T w l -> sort_invariant T w (filter f l).
Proof.
  destruct T; simpl.
  - trivial.
  - rewrite !MeshRenderer_order_iff. apply ListFacts.StronglySorted_filter.
  - intros [H _].
    assert (Light_order w (filter f l)) as H'.
    { apply Light_order_iff, ListFacts.StronglySorted_filter, Light_order_iff, H. }
    split; [exact H' | now apply Light_order_grouped].
Qed.

Lemma sort_invariant_keys T (w w' : World) (h : addr) (l : list addr) :
  keeps_sort_keys h w w' -> ~ In h l ->
  sort_invariant T w l -> sort_invariant T w' l.
Proof.
  intros Hk Hh.
  assert (forall x, In x l -> x <> h) as Hne by (intros x Hx ->; contradiction).
  destruct T; simpl.
  - trivial.
  - rewrite !MeshRenderer_order_iff.
    apply ListFacts.StronglySorted_impl.
    intros a b Ha Hb. unfold mesh_le.
    destruct (Hk a (Hne a Ha)) as (-> & -> & _).
    destruct (Hk b (Hne b Hb)) as (-> & -> & _). trivial.
  - intros [H _].
    assert (Light_order w' l) as H'.
    { apply Light_order_iff. apply Light_order_iff in H. revert H.
      apply ListFacts.StronglySorted_impl.
      intros a b Ha Hb. unfold light_ge.
      destruct (Hk a (Hne a Ha)) as (_ & _ & ->).
      destruct (Hk b (Hne b Hb)) as (_ & _ & ->). trivial. }
    split; [exact H' | now apply Light_order_grouped].
Qed.

(** C10.  Releasing an active component takes every occurrence of its
    handle, and nothing else, out of the active sequence; what remains
    is the old sequence with that handle struck out, in the old order
    (nothing is sorted again).  The ordering of the pool therefore
    survives: under any fixed reading of the sort keys, and under the
    reading after [component->Free()] as long as that call leaves the
    keys of the other components alone. *)
Theorem Free_strikes_out_the_handle_and_keeps_order :
  forall (T : PoolType) (s : @State World) (h : addr),
    In h (allocated s) ->
    let s' := Free (PtrT h) s in
    allocated s' = filter (fun x => negb (x =? h)) (allocated s) /\
    ~ In h (allocated s') /\
    (forall x, x <> h -> count_occ Nat.eq_dec (allocated s') x
                         = count_occ Nat.eq_dec (allocated s) x) /\
    (forall w, sort_invariant T w (allocated s) ->
               sort_invariant T w (allocated s')) /\
    (keeps_sort_keys h (world s) (world s') ->
     sort_invariant T (world s) (allocated s) ->
     sort_invariant T (world s') (allocated s')).
Proof.
  intros T s h _. cbv zeta. cbn [Free allocated world dynamic_pointer_cast get].
  rewrite erase_remove_filter.
  assert (~ In h (filter (fun x => negb (x =? h)) (allocated s))) as Hout.
  { intros Hin. apply filter_In in Hin as [_ Hin].
    now rewrite Nat.eqb_refl in Hin. }
  repeat split.
  - exact Hout.
  - intros x Hx. induction (allocated s) as [|y l IH]; simpl; [reflexivity|].
    destruct (Nat.eqb_spec y h) as [->|Hy]; simpl.
    + destruct (Nat.eq_dec h x); [congruence|]. apply IH.
      intros Hin. apply filter_In in Hin as [_ Hin].
      now rewrite Nat.eqb_refl in Hin.
    + destruct (Nat.eq_dec y x); [f_equal|]; apply IH;
        intros Hin; apply filter_In in Hin as [_ Hin];
        now rewrite Nat.eqb_refl in Hin.
  - intros w. apply sort_invariant_filter.
  - intros Hk Hinv.
    eapply sort_invariant_keys; [exact Hk | exact Hout |].
    now apply sort_invariant_filter.
Qed.

End Facts.
End PoolFacts.

(** ** The pool on the small scene *)

Module PoolExamples.
Import ComponentPool Std StdFacts Scene.

(** In [scene0], [component->Free()] only clears the owner. *)
Lemma Scene_Free_keeps_sort_keys (h : addr) (w : World) :
  keeps_sort_keys h w (IComponent_Free h w).
Proof.
  intros x Hx. unfold transparent. simpl.
  apply Nat.eqb_neq in Hx. rewrite Hx. auto.
Qed.

(** Four renderers: the opaque ones (2 and 4, material 10) come first,
    the transparent ones (1 and 3, material 20) last; 4 is disabled. *)
Example four_renderers :
  let s := run MeshRenderer
             [Acquire 100; Acquire 101; Acquire 102; Acquire 103] (init scene0) in
  allocated s = [4; 2; 1; 3] /\
  length (unallocated s) = 28 /\
  heap_next s = 33 /\
  GetAllEnabled s = [2; 1; 3].
Proof. vm_compute. auto. Qed.

(** Lights: types 2, 2, 1, 1 after four acquires, one release and one
    more acquire; the released handle 3 went to the back of the queue. *)
Example five_lights :
  let s := run Light
             [Acquire 100; Acquire 101; Acquire 102; Acquire 103;
              Release (PtrT 3); Acquire 104] (init scene0) in
  allocated s = [5; 2; 1; 4] /\
  map (Light_GetType (world s)) (allocated s) = [2; 2; 1; 1]%Z /\
  last (unallocated s) nullptr = 3.
Proof. vm_compute. auto. Qed.

Lemma active_count_and_disjointness_witness :
  let ops := [Acquire 100; Acquire 101; Release (PtrT 1); Acquire 102] in
  releases_only_active MeshRenderer ops (init scene0) = true /\
  (let s := run MeshRenderer ops (init scene0) in
   GetActiveCount s = (Z.of_nat (acquires ops) - Z.of_nat (releases ops))%Z /\
   (forall h, In h (allocated s) -> In h (unallocated s) -> False)).
Proof.
  split.
  - vm_compute. reflexivity.
  - apply (@PoolFacts.active_count_and_disjointness _ _ _ MeshRenderer scene0).
    vm_compute. reflexivity.
Defined.

(** C5 fails on the code.  After one acquire on the empty pool, handle 1
    is active and handles 2 to 32 wait in the free queue; handle 2 has
    never been active.  [Free] on handle 2 returns normally, leaves the
    active sequence alone and puts handle 2 on the free queue a second
    time. *)
Lemma Free_accepts_a_handle_that_was_never_active :
  let s := run OtherComponent [Acquire 100] (init scene0) in
  let s' := Free (PtrT 2) s in
  allocated s = [1] /\
  ~ In 2 (allocated s) /\
  allocated s' = [1] /\
  unallocated s' = unallocated s ++ [2] /\
  unallocated s' <> unallocated s /\
  count_occ Nat.eq_dec (unallocated s') 2 = 2.
Proof.
  vm_compute. repeat split; try discriminate.
  intros [H|[]]. discriminate.
Qed.

Lemma Free_of_inactive_handle_enqueues_it_witness :
  let s := run OtherComponent [Acquire 100] (init scene0) in
  ~ In (dynamic_pointer_cast (PtrT 2)) (allocated s) /\
  (allocated (Free (PtrT 2) s) = allocated s /\
   unallocated (Free (PtrT 2) s)
   = unallocated s ++ [dynamic_pointer_cast (PtrT 2)] /\
   heap_next (Free (PtrT 2) s) = heap_next s).
Proof.
  assert (~ In (dynamic_pointer_cast (PtrT 2))
            (allocated (run OtherComponent [Acquire 100] (init scene0)))) as H.
  { vm_compute. intros [H|[]]. discriminate. }
  split.
  - exact H.
  - exact (PoolFacts.Free_of_inactive_handle_enqueues_it _ (PtrT 2) H).
Defined.

Lemma Free_strikes_out_the_handle_and_keeps_order_witness :
  let s := run MeshRenderer
             [Acquire 100; Acquire 101; Acquire 102; Acquire 103] (init scene0) in
  In 2 (allocated s) /\
  (let s' := Free (PtrT 2) s in
   allocated s' = filter (fun x => negb (x =? 2)) (allocated s) /\
   ~ In 2 (allocated s') /\
   (forall x, x <> 2 -> count_occ Nat.eq_dec (allocated s') x
                        = count_occ Nat.eq_dec (allocated s) x) /\
   (forall w, sort_invariant MeshRenderer w (allocated s) ->
              sort_invariant MeshRenderer w (allocated s')) /\
   (keeps_sort_keys 2 (world s) (world s') ->
    sort_invariant MeshRenderer (world s) (allocated s) ->
    sort_invariant MeshRenderer (world s') (allocated s'))).
Proof.
  assert (In 2 (allocated
                  (run MeshRenderer
                     [Acquire 100; Acquire 101; Acquire 102; Acquire 103]
                     (init scene0)))) as H.
  { vm_compute. auto. }
  split.
  - exact H.
  - exact (PoolFacts.Free_strikes_out_the_handle_and_keeps_order MeshRenderer _ 2 H).
Defined.

End PoolExamples.

(** ** Game *)

Module GameFacts.
Import Game.

(** *** Shadow passes *)

Lemma Draw_shadow_passes (g : Game) :
  shadow_passes FLASHLIGHT_SHADOW (Draw g) = (if flashMenuToggle g then 1 else 0) /\
  shadow_passes ENV_SHADOW (Draw g) = 1.
Proof.
  unfold Draw, shadow_passes. destruct (flashMenuToggle g); simpl; auto.
Qed.

Lemma shadow_passes_app t (l1 l2 : list Call) :
  shadow_passes t (l1 ++ l2) = shadow_passes t l1 + shadow_passes t l2.
Proof.
  unfold shadow_passes. now rewrite filter_app, length_app.
Qed.

Lemma Update_no_shadow_pass ui (g : Game) t :
  shadow_passes t (snd (Update ui g)) = 0.
Proof.
  unfold Update, Flashlight, shadow_passes.
  match goal with |- context [if ?b then (_, _) else _] => destruct b end;
    reflexivity.
Qed.

(** After [Update], the flashlight's [enabled] is [flashMenuToggle]. *)
Lemma Update_syncs_flashlight ui (g : Game) :
  let g1 := fst (Update ui g) in
  light_enabled g1 (GetFlashlight (globalAssets g1)) = flashMenuToggle g1.
Proof.
  unfold Update, Flashlight, FlickeringCheck.
  generalize (RenderUI ui g). intros g0.
  destruct (key_ToggleFlashlight ui), (flashMenuToggle g0) eqn:Ht,
           (key_ToggleFlashlightFlicker ui);
    repeat (progress (simpl; rewrite ?Ht)); rewrite ?Nat.eqb_refl; reflexivity.
Qed.

(** C7, as the code has it.  In every frame ([Update], then [Draw]) the
    flashlight shadow map is rendered once if the flashlight is enabled
    when [Draw] runs and not at all otherwise; the environment shadow map
    is rendered once in every frame, whatever the lights' [enabled] flags
    are. *)
Theorem shadow_passes_of_a_frame :
  forall (ui : UserInput) (g : Game),
    let g1 := fst (Frame ui g) in
    let calls := snd (Frame ui g) in
    shadow_passes FLASHLIGHT_SHADOW calls
    = (if light_enabled g1 (GetFlashlight (globalAssets g1)) then 1 else 0) /\
    shadow_passes ENV_SHADOW calls = 1.
Proof.
  intros ui g. unfold Frame.
  pose proof (Update_syncs_flashlight ui g) as Hsync.
  pose proof (Update_no_shadow_pass ui g) as Hnone.
  destruct (Update ui g) as [g1 calls]. simpl in *.
  rewrite !shadow_passes_app, !Hnone, Hsync.
  apply Draw_shadow_passes.
Qed.

(** C7 fails on the code.  In [game0] every light is disabled and the
    user touches nothing; the frame still renders the environment shadow
    map. *)
Lemma env_shadow_rendered_with_every_light_disabled :
  let g1 := fst (Frame idle game0) in
  let calls := snd (Frame idle game0) in
  (forall p, light_enabled g1 p = false) /\
  In (Renderer_RenderShadows (mainShadowCamera g1) ENV_SHADOW) calls /\
  shadow_passes ENV_SHADOW calls = 1.
Proof.
  split.
  - intros p. simpl. now destruct (p =? 14).
  - vm_compute. auto.
Qed.

(** *** Resize *)

(** C8.  [OnResize] calls [PreResize] before the platform's resize
    handling and [PostResize] after it, with the new height and width in
    that order; and when there is a main camera, its projection matrix
    has been given the new aspect ratio [width / height] by the time any
    call of a later [Draw] is made. *)
Theorem OnResize_protocol :
  forall (g g' : Game),
    let resize := OnResize g in
    before Renderer_PreResize DXCore_OnResize resize /\
    before DXCore_OnResize (Renderer_PostResize (height g) (width g)) resize /\
    (forall h w, In (Renderer_PostResize h w) resize ->
                 h = height g /\ w = width g) /\
    (mainCamera g = nullptr \/
     forall x, In x (Draw g') ->
       before (Camera_UpdateProjectionMatrix (mainCamera g)
                 (float_div (width g) (height g)) true)
              x (resize ++ Draw g')).
Proof.
  intros g g'. unfold OnResize. cbv zeta.
  set (cam := if negb (mainCamera g =? nullptr)
              then [Camera_UpdateProjectionMatrix (mainCamera g)
                      (float_div (width g) (height g)) true]
              else []).
  split; [|split; [|split]].
  - exists cam, [], [Renderer_PostResize (height g) (width g)]. reflexivity.
  - exists (cam ++ [Renderer_PreResize]), [], []. now rewrite <- app_assoc.
  - intros h w Hin. apply in_app_or in Hin as [Hin|Hin].
    + subst cam. destruct (negb (mainCamera g =? nullptr)); simpl in Hin.
      * destruct Hin as [Hin|[]]. discriminate.
      * contradiction.
    + simpl in Hin. destruct Hin as [H|[H|[H|[]]]]; try discriminate.
      injection H as <- <-. auto.
  - destruct (Nat.eqb_spec (mainCamera g) nullptr) as [Hnull|Hcam];
      [now left|right].
    intros x Hx. apply in_split in Hx as (d1 & d2 & ->).
    subst cam. simpl.
    exists [], ([Renderer_PreResize; DXCore_OnResize;
                 Renderer_PostResize (height g) (width g)] ++ d1), d2.
    reflexivity.
Qed.

(** On [game0]: the projection call carries 1280 / 720, [PostResize]
    carries 720 and 1280. *)
Example OnResize_game0 :
  OnResize game0 =
  [Camera_UpdateProjectionMatrix 1 (float_div 1280 720) true;
   Renderer_PreResize; DXCore_OnResize; Renderer_PostResize 720 1280].
Proof. reflexivity. Qed.

(** *** The loading screen *)

Lemma loading_frame_presents_once (am : AssetManager) :
  frames_presented (loading_frame am) = 1.
Proof. reflexivity. Qed.

Lemma wait_for_returns_flag during_wait (am : AssetManager) :
  snd (wait_for during_wait am)
  = singleLoadComplete (fst (wait_for during_wait am)).
Proof.
  unfold wait_for. destruct (singleLoadComplete am) eqn:H; simpl; congruence.
Qed.

(** C9.  One iteration of the presenter loop, entered with the shared
    state [am0].  It waits once, with a timeout of 3000 milliseconds.
    The load-completion signal has arrived in time exactly when the flag
    is set on entry or the loader sets it during the wait; then the
    iteration presents exactly one loading-screen frame, of what the
    loader last reported.  Otherwise (timeout) it makes no rendering
    call at all and leaves the shared state exactly as the loader has
    it: nothing of the loader is cancelled.  Either way the iteration
    ends by clearing [singleLoadComplete], unlocking and notifying, and
    it never writes the load state or the last loaded item.  The loop
    then tests the load state again: it goes round once more, from the
    state this iteration left, exactly when the state is still
    [INITIALIZING] at that test, after a timeout as after a frame, and
    makes no further call once it is not. *)
Theorem DrawLoadingScreen_iteration_protocol :
  forall (turn : LoaderTurn) (schedule : list LoaderTurn) (am : AssetManager),
    let am0 := before_test turn am in
    let am1 := if singleLoadComplete am0 then am0 else during_wait turn am0 in
    let signalled := singleLoadComplete am1 in
    let am2 := fst (DrawLoadingScreen_iteration (during_wait turn) am0) in
    let calls := snd (DrawLoadingScreen_iteration (during_wait turn) am0) in
    filter is_wait_for calls = [ConditionVariable_wait_for (3 * 1000)] /\
    frames_presented calls = (if signalled then 1 else 0) /\
    (if signalled
     then calls = [Mutex_lock; ConditionVariable_wait_for 3000]
                  ++ loading_frame am1
                  ++ [AssetManager_SetSingleLoadComplete false;
                      Mutex_unlock; ConditionVariable_notify_all]
     else calls = [Mutex_lock; ConditionVariable_wait_for 3000;
                   AssetManager_SetSingleLoadComplete false;
                   Mutex_unlock; ConditionVariable_notify_all]
          /\ am2 = am1) /\
    singleLoadComplete am2 = false /\
    assetManagerLoadState am2 = assetManagerLoadState am1 /\
    loaded am2 = loaded am1 /\
    DrawLoadingScreen (turn :: schedule) am
    = match assetManagerLoadState am0 with
      | INITIALIZING =>
          (fst (DrawLoadingScreen schedule am2),
           calls :: snd (DrawLoadingScreen schedule am2))
      | _ => (am0, [])
      end.
Proof.
  intros turn schedule am. cbv zeta.
  set (am0 := before_test turn am).
  assert (DrawLoadingScreen (turn :: schedule) am
          = match assetManagerLoadState am0 with
            | INITIALIZING =>
                (fst (DrawLoadingScreen schedule
                        (fst (DrawLoadingScreen_iteration (during_wait turn) am0))),
                 snd (DrawLoadingScreen_iteration (during_wait turn) am0)
                 :: snd (DrawLoadingScreen schedule
                           (fst (DrawLoadingScreen_iteration (during_wait turn) am0))))
            | _ => (am0, [])
            end) as Hloop.
  { cbn [DrawLoadingScreen]. fold am0.
    destruct (assetManagerLoadState am0); try reflexivity.
    destruct (DrawLoadingScreen_iteration (during_wait turn) am0) as [a c].
    cbn [fst snd]. now destruct (DrawLoadingScreen schedule a). }
  rewrite Hloop. clear Hloop.
  unfold DrawLoadingScreen_iteration, wait_for.
  destruct (singleLoadComplete am0) eqn:H0.
  - cbn [fst snd]. rewrite H0. repeat split.
  - cbn [fst snd].
    destruct (singleLoadComplete (during_wait turn am0)) eqn:H1.
    + repeat split.
    + repeat split.
      destruct (during_wait turn am0) as [fl li lo st flag].
      simpl in H1. subst flag. reflexivity.
Qed.

(** The loader finishes an item while the presenter waits: one frame.
    Nothing happens during the wait: no frame, and the closing calls all
    the same. *)
Example one_item_loaded :
  let loader am :=
    {| GetFlashlight := GetFlashlight am; GetLightAtID := GetLightAtID am;
       loaded := {| category := "Textures"; object := "bronze";
                    errorCode := None |};
       assetManagerLoadState := assetManagerLoadState am;
       singleLoadComplete := true |} in
  snd (DrawLoadingScreen_iteration loader (globalAssets game0)) =
  [Mutex_lock; ConditionVariable_wait_for 3000;
   Context_ClearRenderTargetView; Context_ClearDepthStencilView;
   SpriteBatch_Begin;
   SpriteFont_DrawString "SHOE";
   SpriteFont_DrawString "Loading Textures";
   SpriteFont_DrawString "Last Object Loaded: bronze";
   SpriteBatch_End; SwapChain_Present; Context_OMSetRenderTargets;
   AssetManager_SetSingleLoadComplete false;
   Mutex_unlock; ConditionVariable_notify_all] /\
  snd (DrawLoadingScreen_iteration (fun am => am) (globalAssets game0)) =
  [Mutex_lock; ConditionVariable_wait_for 3000;
   AssetManager_SetSingleLoadComplete false;
   Mutex_unlock; ConditionVariable_notify_all].
Proof. split; reflexivity. Qed.

End GameFacts.

(** ** More on ComponentPool<T> *)

Module PoolExtras.
Import ComponentPool.

Section Extras.
Context {World : Type} {C : Components World} {std : Std.Sorter}.

Lemma ensure_available_allocated (s : @State World) :
  allocated (ensure_available s) = allocated s.
Proof.
  unfold ensure_available.
  destruct (length (unallocated s) =? 0); [apply PoolFacts.refill_spec|reflexivity].
Qed.

(** X1.  [std::sort] is never called outside its contract: whatever the scene
    holds, both comparator lambdas are strict weak orderings
    (irreflexive, transitive, with transitive equivalence). *)
Theorem Sort_comparators_meet_the_requirement_of_std_sort :
  forall w : World,
    Std.StrictWeakOrder (MeshRenderer_less w) /\
    Std.StrictWeakOrder (Light_less w).
Proof.
  intros w. split.
  - apply PoolFacts.MeshRenderer_less_swo.
  - apply PoolFacts.Light_less_swo.
Qed.

(** X2.  In a pool that holds no handle twice, [Instantiate] returns a handle
    that was not active before; afterwards the active sequence is the old
    one with that handle added (in some order), the handle occurs in it
    once and has left the free queue. *)
Theorem Instantiate_activates_one_free_handle :
  forall (T : PoolType) (gameEntity : addr) (s : @State World),
    consistent s ->
    let c := fst (Instantiate T gameEntity s) in
    let s' := snd (Instantiate T gameEntity s) in
    Permutation (allocated s ++ [c]) (allocated s') /\
    ~ In c (allocated s) /\
    ~ In c (unallocated s') /\
    count_occ Nat.eq_dec (allocated s') c = 1.
Proof.
  intros T e s Hs. apply PoolFacts.ensure_available_consistent in Hs.
  destruct (PoolFacts.Instantiate_spec T e s) as (c & q & Hq & ->).
  cbv zeta. unfold fst, snd.
  destruct Hs as [Hnd _]. rewrite Hq in Hnd.
  rewrite ensure_available_allocated in *.
  apply NoDup_remove_2 in Hnd.
  match goal with |- context [Sort T ?x] =>
    pose proof (PoolFacts.Sort_permutes T x) as Hp;
    destruct (PoolFacts.Sort_frame T x) as (Hu & _) end.
  rewrite Hu. cbn [allocated unallocated] in *.
  assert (~ In c (allocated s)) as Ha
      by (intros H; apply Hnd, in_or_app; now left).
  repeat split.
  - exact Hp.
  - exact Ha.
  - intros H. apply Hnd, in_or_app. now right.
  - rewrite <- (proj1 (Permutation_count_occ Nat.eq_dec _ _) Hp c).
    apply (count_occ_not_In Nat.eq_dec) in Ha. unfold addr in *.
    rewrite count_occ_app, Ha. simpl.
    destruct (Nat.eq_dec c c); congruence.
Qed.

(** X3.  The free queue is first in, first out.  Right after a release the
    next [Instantiate] makes no new instance and takes the oldest free
    handle: the one just released only when the queue was empty. *)
Theorem Free_then_Instantiate_takes_the_oldest_free_handle :
  forall (T : PoolType) (gameEntity : addr) (s : @State World) (h : addr),
    let r := Instantiate T gameEntity (Free (PtrT h) s) in
    fst r = hd h (unallocated s) /\
    unallocated (snd r) = tl (unallocated s ++ [h]) /\
    heap_next (snd r) = heap_next s.
Proof.
  intros T e s h. cbv zeta.
  set (s1 := Free (PtrT h) s).
  assert (exists x rest, unallocated s1 = x :: rest /\
                         x = hd h (unallocated s) /\
                         rest = tl (unallocated s ++ [h])) as (x & rest & Hu & -> & ->).
  { subst s1. simpl. destruct (unallocated s) as [|x q]; simpl; eauto. }
  destruct (PoolFacts.Instantiate_spec T e s1) as (c & q & Hq & ->).
  rewrite (PoolFacts.ensure_available_nonempty s1 Hu) in *.
  rewrite Hu in Hq. injection Hq as <- <-.
  unfold fst, snd.
  match goal with |- context [Sort T ?x] =>
    destruct (PoolFacts.Sort_frame T x) as (-> & -> & _) end.
  auto.
Qed.

Lemma Instantiate_perm T e (s : @State World) :
  Permutation (allocated s ++ [fst (Instantiate T e s)])
              (allocated (snd (Instantiate T e s))).
Proof.
  destruct (PoolFacts.Instantiate_spec T e s) as (c & q & _ & ->).
  unfold fst, snd.
  match goal with |- context [Sort T ?x] =>
    pose proof (PoolFacts.Sort_permutes T x) as Hp end.
  cbn [allocated] in Hp. rewrite ensure_available_allocated in *. exact Hp.
Qed.

(** What [Instantiate] does to the free queue and the allocator. *)
Lemma Instantiate_queue T e (s : @State World) :
  let c := fst (Instantiate T e s) in
  let s' := snd (Instantiate T e s) in
  match unallocated s with
  | [] => c = heap_next s /\
          unallocated s' = seq (S (heap_next s)) 31 /\
          heap_next s' = heap_next s + 32
  | c0 :: q0 => c = c0 /\ unallocated s' = q0 /\ heap_next s' = heap_next s
  end.
Proof.
  destruct (PoolFacts.Instantiate_spec T e s) as (c & q & Hq & ->).
  cbv zeta. unfold fst, snd.
  match goal with |- context [Sort T ?x] =>
    destruct (PoolFacts.Sort_frame T x) as (-> & -> & _) end.
  cbn [unallocated heap_next].
  destruct (unallocated s) as [|c0 q0] eqn:Hs.
  - destruct (PoolFacts.ensure_available_empty s Hs) as (_ & Hu & Hn & _).
    rewrite Hn. rewrite Hu in Hq. change POOL_SIZE with (S 31) in Hq.
    cbn [seq] in Hq. injection Hq as <- <-. auto.
  - rewrite (PoolFacts.ensure_available_nonempty s Hs) in Hq |- *.
    rewrite Hs in Hq. injection Hq as -> ->. auto.
Qed.

Lemma run_conserves T (ops : list Op) (s : @State World) :
  consistent s ->
  length (allocated s) + length (unallocated s) + 1 = heap_next s ->
  (heap_next s - 1) mod 32 = 0 ->
  releases_only_active T ops s = true ->
  length (allocated (run T ops s)) + length (unallocated (run T ops s)) + 1
  = heap_next (run T ops s) /\
  (heap_next (run T ops s) - 1) mod 32 = 0.
Proof.
  revert s. induction ops as [|op ops IH]; intros s Hs Hsum Hmod Hok.
  - auto.
  - simpl in Hok. apply andb_prop in Hok as [Hop Hok].
    change (run T (op :: ops) s) with (run T ops (step T s op)).
    apply IH; [| | |exact Hok]; clear IH Hok.
    + destruct op as [e|c|f]; cbn [step].
      * now apply PoolFacts.Instantiate_consistent.
      * apply PoolFacts.is_active_In in Hop as (h & -> & Hin).
        now apply PoolFacts.Free_consistent.
      * exact Hs.
    + destruct op as [e|c|f]; cbn [step].
      * pose proof (Instantiate_queue T e s) as Hq. cbv zeta in Hq.
        pose proof (PoolFacts.Instantiate_length T e s) as Hl. clear Hmod.
        destruct (unallocated s) as [|c0 q0]; destruct Hq as (_ & Hu & Hn);
          rewrite Hl, Hu, Hn; cbn [length] in *; rewrite ?length_seq; lia.
      * apply PoolFacts.is_active_In in Hop as (h & -> & Hin).
        pose proof (@PoolFacts.Free_length _ _ s h Hs Hin) as Hl.
        clear Hmod.
        cbn [Free unallocated heap_next dynamic_pointer_cast] in *.
        rewrite length_app. cbn [length]. lia.
      * exact Hsum.
    + destruct op as [e|c|f]; cbn [step].
      * pose proof (Instantiate_queue T e s) as Hq. cbv zeta in Hq.
        destruct (unallocated s) as [|c0 q0]; destruct Hq as (_ & _ & Hn);
          rewrite Hn; [|exact Hmod].
        replace (heap_next s + 32 - 1) with (heap_next s - 1 + 1 * 32) by lia.
        now rewrite Nat.Div0.mod_add.
      * exact Hmod.
      * exact Hmod.
Qed.

(** X4.  Start from the empty pool and release only active components.  Then
    every instance [std::make_shared] has made is accounted for, either
    in the active sequence or in the free queue, and instances have only
    ever been made 32 at a time. *)
Theorem every_instance_is_active_or_free :
  forall (T : PoolType) (w : World) (ops : list Op),
    releases_only_active T ops (init w) = true ->
    let s := run T ops (init w) in
    length (allocated s) + length (unallocated s) + 1 = heap_next s /\
    exists batches, heap_next s = 1 + POOL_SIZE * batches.
Proof.
  intros T w ops Hok.
  destruct (@run_conserves T ops (init w) (PoolFacts.consistent_init w)
              eq_refl eq_refl Hok) as [Hsum Hmod].
  split; [exact Hsum|].
  exists ((heap_next (run T ops (init w)) - 1) / 32).
  cbv zeta. unfold POOL_SIZE.
  pose proof (Nat.div_mod_eq (heap_next (run T ops (init w)) - 1) 32) as Hd.
  rewrite Hmod in Hd. lia.
Qed.

Lemma acquires_only T (es : list addr) :
  forall (s : @State World) k m,
    Permutation (allocated s) (seq 1 k) ->
    unallocated s = seq (k + 1) m ->
    heap_next s = k + m + 1 ->
    m < 32 ->
    (k + m) mod 32 = 0 ->
    exists m',
      Permutation (allocated (run T (map Acquire es) s)) (seq 1 (k + length es)) /\
      unallocated (run T (map Acquire es) s) = seq (k + length es + 1) m' /\
      heap_next (run T (map Acquire es) s) = k + length es + m' + 1 /\
      m' < 32 /\
      (k + length es + m') mod 32 = 0.
Proof.
  induction es as [|e es IH]; intros s k m Hp Hu Hn Hm Hmod.
  - exists m. simpl. rewrite !Nat.add_0_r. auto.
  - change (run T (map Acquire (e :: es)) s)
      with (run T (map Acquire es) (snd (Instantiate T e s))).
    pose proof (Instantiate_queue T e s) as Hq. cbv zeta in Hq.
    pose proof (Instantiate_perm T e s) as Hperm.
    assert (exists m1,
               fst (Instantiate T e s) = k + 1 /\
               unallocated (snd (Instantiate T e s)) = seq (S k + 1) m1 /\
               heap_next (snd (Instantiate T e s)) = S k + m1 + 1 /\
               m1 < 32 /\ (S k + m1) mod 32 = 0) as (m1 & Hc & Hu1 & Hn1 & Hm1 & Hmod1).
    { rewrite Hu in Hq. destruct m as [|m].
      - change (seq (k + 1) 0) with (@nil nat) in Hq.
        destruct Hq as (Hc & Hu1 & Hn1). exists 31.
        rewrite Hc, Hu1, Hn1, Hn.
        replace (S k + 31) with (k + 0 + 1 * 32) by lia.
        rewrite Nat.Div0.mod_add.
        repeat split; try lia; try assumption; try (f_equal; lia).
      - change (seq (k + 1) (S m)) with ((k + 1) :: seq (S (k + 1)) m) in Hq.
        destruct Hq as (Hc & Hu1 & Hn1). exists m.
        rewrite Hc, Hu1, Hn1, Hn.
        replace (S k + m) with (k + S m) by lia.
        repeat split; try lia; try assumption; try (f_equal; lia). }
    destruct (IH (snd (Instantiate T e s)) (S k) m1) as (m' & H1 & H2 & H3 & H4 & H5);
      try assumption.
    + eapply Permutation_trans; [apply Permutation_sym, Hperm|].
      rewrite Hc, seq_S. replace (1 + k) with (k + 1) by lia.
      apply Permutation_app_tail. exact Hp.
    + exists m'. simpl length.
      replace (k + S (length es)) with (S k + length es) by lia. auto.
Qed.

(** X5.  On a fresh pool, [k] acquires in a row hand out the instances 1 to
    [k], make instances in whole batches of 32, as few as cover [k], and
    leave the rest of the last batch in the free queue in the order it
    was made. *)
Theorem acquires_on_a_fresh_pool :
  forall (T : PoolType) (w : World) (gameEntities : list addr),
    let k := length gameEntities in
    let s := run T (map Acquire gameEntities) (init w) in
    Permutation (allocated s) (seq 1 k) /\
    heap_next s = 1 + POOL_SIZE * ((k + 31) / POOL_SIZE) /\
    unallocated s = seq (k + 1) (heap_next s - 1 - k).
Proof.
  intros T w es. cbv zeta.
  destruct (@acquires_only T es (init w) 0 0) as (m & Hp & Hu & Hn & Hm & Hmod);
    try reflexivity; try lia.
  change (0 + length es) with (length es) in *.
  split; [exact Hp|].
  assert (heap_next (run T (map Acquire es) (init w))
          = 1 + POOL_SIZE * ((length es + 31) / POOL_SIZE)) as Hb.
  { rewrite Hn. unfold POOL_SIZE.
    pose proof (Nat.div_mod_eq (length es + m) 32) as Hd. rewrite Hmod in Hd.
    assert ((length es + 31) / 32 = (length es + m) / 32) as ->; [|lia].
    symmetry. apply Nat.div_unique with (r := 31 - m); lia. }
  split; [exact Hb|].
  rewrite Hu. f_equal. lia.
Qed.

Lemma erase_remove_gone (v : addr) (l : list addr) :
  count_occ Nat.eq_dec (erase_remove v l) v = 0.
Proof.
  apply count_occ_not_In. rewrite PoolFacts.erase_remove_filter.
  intros H. apply filter_In in H as [_ H]. now rewrite Nat.eqb_refl in H.
Qed.

(** X6.  Releasing the same component twice puts its handle on the free queue
    twice.  With no other free instance, the next two acquires both
    return that one component, no instance is made, and the component
    then sits in the active sequence twice. *)
Theorem double_Free_hands_one_component_to_two_owners :
  forall (T : PoolType) (owner1 owner2 : addr) (s : @State World) (h : addr),
    unallocated s = [] ->
    let s2 := Free (PtrT h) (Free (PtrT h) s) in
    let r1 := Instantiate T owner1 s2 in
    let r2 := Instantiate T owner2 (snd r1) in
    fst r1 = h /\ fst r2 = h /\
    count_occ Nat.eq_dec (allocated (snd r2)) h = 2 /\
    heap_next (snd r2) = heap_next s.
Proof.
  intros T e1 e2 s h Hs. cbv zeta.
  set (s2 := Free (PtrT h) (Free (PtrT h) s)).
  assert (unallocated s2 = [h; h]) as Hu2 by (subst s2; simpl; now rewrite Hs).
  pose proof (Instantiate_queue T e1 s2) as H1. cbv zeta in H1.
  rewrite Hu2 in H1. destruct H1 as (Hc1 & Hu1 & Hn1).
  pose proof (Instantiate_queue T e2 (snd (Instantiate T e1 s2))) as H2.
  cbv zeta in H2. rewrite Hu1 in H2. destruct H2 as (Hc2 & _ & Hn2).
  repeat split; try assumption.
  - pose proof (proj1 (Permutation_count_occ Nat.eq_dec _ _)
                  (Instantiate_perm T e2 (snd (Instantiate T e1 s2))) h) as P2.
    pose proof (proj1 (Permutation_count_occ Nat.eq_dec _ _)
                  (Instantiate_perm T e1 s2) h) as P1.
    pose proof (erase_remove_gone h (erase_remove h (allocated s))) as P0.
    unfold addr in *.
    rewrite <- P2, count_occ_app, <- P1, count_occ_app, Hc1, Hc2.
    subst s2. cbn [Free allocated dynamic_pointer_cast].
    rewrite P0. simpl.
    destruct (Nat.eq_dec h h); [reflexivity|congruence].
  - now rewrite Hn2, Hn1.
Qed.

(** X7.  Handing [Free] a component of another class makes the cast
    fail: a null handle goes on the free queue and no null handle stays
    in the active sequence.  With no other free instance, the refill is
    then skipped, because the queue is not empty, and the handle at the
    front of the queue, the one the next [Instantiate] takes to [Bind],
    is that null handle. *)
Theorem Free_of_another_class_queues_a_null_handle :
  forall (s : @State World) (a : addr),
    unallocated s = [] ->
    let s' := Free (PtrOther a) s in
    unallocated s' = [nullptr] /\
    ~ In nullptr (allocated s') /\
    heap_next s' = heap_next s /\
    ensure_available s' = s' /\
    front (unallocated (ensure_available s')) = nullptr.
Proof.
  intros s a Hs. cbv zeta.
  set (s1 := Free (PtrOther a) s).
  assert (unallocated s1 = [nullptr]) as Hu1 by (subst s1; simpl; now rewrite Hs).
  pose proof (PoolFacts.ensure_available_nonempty s1 Hu1) as He.
  rewrite He, Hu1. repeat split.
  subst s1. cbn [Free allocated dynamic_pointer_cast].
  rewrite PoolFacts.erase_remove_filter. intros H.
  apply filter_In in H as [_ H]. discriminate.
Qed.

(** X8.  [GetAllEnabled] never returns a component that is not active or not
    enabled, so it is no longer than [GetAll]; and it returns the whole
    active sequence exactly when no active component is disabled. *)
Theorem GetAllEnabled_within_GetAll :
  forall s : @State World,
    (forall c, In c (GetAllEnabled s) <->
               In c (GetAll s) /\ IComponent_IsEnabled (world s) c = true) /\
    length (GetAllEnabled s) <= length (GetAll s) /\
    (GetAllEnabled s = GetAll s <->
     forall c, In c (GetAll s) -> IComponent_IsEnabled (world s) c = true).
Proof.
  intros s. unfold GetAllEnabled, GetAll.
  rewrite PoolFacts.fold_emplace_back_filter. simpl.
  generalize (IComponent_IsEnabled (world s)) (allocated s). intros f l.
  split; [|split].
  - intros c. apply filter_In.
  - induction l as [|x l IH]; simpl; [lia|].
    destruct (f x); simpl; lia.
  - split.
    + intros Heq c Hc. rewrite <- Heq in Hc.
      now apply filter_In in Hc.
    + intros Hall. induction l as [|x l IH]; simpl; [reflexivity|].
      rewrite (Hall x (or_introl eq_refl)). f_equal.
      apply IH. intros c Hc. apply Hall. now right.
Qed.

End Extras.
End PoolExtras.

(** ** The pool extras on the small scene *)

Module PoolExtrasExamples.
Import ComponentPool Std StdFacts Scene.

Lemma Instantiate_activates_one_free_handle_witness :
  consistent (init scene0) /\
  (let c := fst (Instantiate MeshRenderer 100 (init scene0)) in
   let s' := snd (Instantiate MeshRenderer 100 (init scene0)) in
   Permutation (allocated (init scene0) ++ [c]) (allocated s') /\
   ~ In c (allocated (init scene0)) /\
   ~ In c (unallocated s') /\
   count_occ Nat.eq_dec (allocated s') c = 1).
Proof.
  assert (consistent (init scene0)) as H by (split; constructor).
  split.
  - exact H.
  - exact (PoolExtras.Instantiate_activates_one_free_handle MeshRenderer 100 H).
Defined.

Lemma every_instance_is_active_or_free_witness :
  let ops := [Acquire 100; Acquire 101; Release (PtrT 1); Acquire 102] in
  releases_only_active Light ops (init scene0) = true /\
  (let s := run Light ops (init scene0) in
   length (allocated s) + length (unallocated s) + 1 = heap_next s /\
   exists batches, heap_next s = 1 + POOL_SIZE * batches).
Proof.
  split.
  - vm_compute. reflexivity.
  - apply (@PoolExtras.every_instance_is_active_or_free _ _ _ Light scene0).
    vm_compute. reflexivity.
Defined.

Lemma double_Free_witness :
  let s := run OtherComponent (map Acquire (seq 100 32)) (init scene0) in
  unallocated s = [] /\
  (let s2 := Free (PtrT 5) (Free (PtrT 5) s) in
   let r1 := Instantiate OtherComponent 101 s2 in
   let r2 := Instantiate OtherComponent 102 (snd r1) in
   fst r1 = 5 /\ fst r2 = 5 /\
   count_occ Nat.eq_dec (allocated (snd r2)) 5 = 2 /\
   heap_next (snd r2) = heap_next s).
Proof.
  split.
  - vm_compute. reflexivity.
  - apply (@PoolExtras.double_Free_hands_one_component_to_two_owners
             _ _ _ OtherComponent 101 102).
    vm_compute. reflexivity.
Defined.

Lemma Free_of_another_class_witness :
  let s := run OtherComponent (map Acquire (seq 100 32)) (init scene0) in
  unallocated s = [] /\
  (let s' := Free (PtrOther 77) s in
   unallocated s' = [nullptr] /\
   ~ In nullptr (allocated s') /\
   heap_next s' = heap_next s /\
   ensure_available s' = s' /\
   front (unallocated (ensure_available s')) = nullptr).
Proof.
  split.
  - vm_compute. reflexivity.
  - apply (@PoolExtras.Free_of_another_class_queues_a_null_handle _ _).
    vm_compute. reflexivity.
Defined.

End PoolExtrasExamples.

(** ** More on Game *)

Module GameExtras.
Import Game.

(** X9.  [Game::Flashlight] honours the flicker key only while the flashlight
    is on: with the flashlight off after the toggle key has been looked
    at, [flickeringEnabled] stays as it was.  The flash shadow camera's
    view matrix is updated under the same condition. *)
Theorem flicker_key_needs_the_flashlight_on :
  forall (ui : UserInput) (g : Game),
    let g1 := fst (Flashlight ui g) in
    flickeringEnabled g1
    = (if flashMenuToggle g1
       then xorb (flickeringEnabled g) (key_ToggleFlashlightFlicker ui)
       else flickeringEnabled g) /\
    snd (Flashlight ui g)
    = (if flashMenuToggle g1
       then [Camera_UpdateViewMatrix (flashShadowCamera g)] else []).
Proof.
  intros ui g. unfold Flashlight, FlickeringCheck.
  destruct (key_ToggleFlashlight ui), (flashMenuToggle g) eqn:Ht,
           (key_ToggleFlashlightFlicker ui);
    repeat (progress (simpl; rewrite ?Ht));
    destruct (flickeringEnabled g); auto.
Qed.

(** X10.  Over one [Update] the menu item and the key both flip the flashlight
    toggle, so using both in the same frame leaves it where it was; and
    the flashlight's [enabled] ends up equal to the toggle whatever the
    light editor did to it. *)
Theorem flashlight_toggle_after_Update :
  forall (ui : UserInput) (g : Game),
    let g1 := fst (Update ui g) in
    flashMenuToggle g1
    = xorb (xorb (flashMenuToggle g) (click_menu_ToggleFlashlight ui))
           (key_ToggleFlashlight ui) /\
    light_enabled g1 (GetFlashlight (globalAssets g1)) = flashMenuToggle g1.
Proof.
  intros ui g. split; [|apply GameFacts.Update_syncs_flashlight].
  unfold Update, Flashlight, FlickeringCheck, RenderUI.
  destruct (lightWindowEnabled g), (key_ToggleFlashlight ui),
           (click_menu_ToggleFlashlight ui), (flashMenuToggle g) eqn:Ht,
           (key_ToggleFlashlightFlicker ui);
    repeat (progress (simpl; rewrite ?Ht)); reflexivity.
Qed.

(** X11.  A light other than the flashlight changes its [enabled] in an
    [Update] only through the light editor: it is flipped when the
    editor is open on that light and its checkbox is clicked, and kept
    otherwise. *)
Theorem other_lights_follow_the_light_editor :
  forall (ui : UserInput) (g : Game) (p : addr),
    p <> GetFlashlight (globalAssets g) ->
    light_enabled (fst (Update ui g)) p
    = (if lightWindowEnabled g
          && (p =? GetLightAtID (globalAssets g) (lightUIIndex g))
       then xorb (light_enabled g p) (click_lightEditor_Enabled ui)
       else light_enabled g p).
Proof.
  intros ui g p Hp. apply Nat.eqb_neq in Hp.
  unfold Update, Flashlight, FlickeringCheck, RenderUI.
  destruct (lightWindowEnabled g), (key_ToggleFlashlight ui),
           (xorb (flashMenuToggle g) (click_menu_ToggleFlashlight ui)) eqn:Ht,
           (key_ToggleFlashlightFlicker ui);
    repeat (progress (simpl; rewrite ?Ht, ?Hp)); try reflexivity;
    destruct (p =? GetLightAtID (globalAssets g) (lightUIIndex g)) eqn:Hc;
    try reflexivity;
    apply Nat.eqb_eq in Hc; now rewrite Hc.
Qed.

Lemma other_lights_follow_the_light_editor_witness :
  10 <> GetFlashlight (globalAssets game0) /\
  light_enabled (fst (Update idle game0)) 10
  = (if lightWindowEnabled game0
        && (10 =? GetLightAtID (globalAssets game0) (lightUIIndex game0))
     then xorb (light_enabled game0 10) (click_lightEditor_Enabled idle)
     else light_enabled game0 10).
Proof.
  assert (10 <> GetFlashlight (globalAssets game0)) as H by (simpl; lia).
  split.
  - exact H.
  - exact (other_lights_follow_the_light_editor idle game0 H).
Defined.

(** X12.  Within a frame the flashlight shadow map is rendered only from the
    flash shadow camera, and only after that camera's view matrix has
    been updated in the same frame; the frame's last call is
    [Renderer::Draw] on the main camera, and no earlier call is a
    [Renderer::Draw]. *)
Theorem frame_order_of_passes :
  forall (ui : UserInput) (g : Game),
    let g1 := fst (Frame ui g) in
    let calls := snd (Frame ui g) in
    (forall cam, In (Renderer_RenderShadows cam FLASHLIGHT_SHADOW) calls ->
       cam = flashShadowCamera g1 /\
       before (Camera_UpdateViewMatrix (flashShadowCamera g1))
              (Renderer_RenderShadows (flashShadowCamera g1) FLASHLIGHT_SHADOW)
              calls) /\
    exists earlier,
      calls = earlier ++ [Renderer_Draw (mainCamera g1)] /\
      forall cam, ~ In (Renderer_Draw cam) earlier.
Proof.
  intros ui g. unfold Frame, Update, Flashlight, FlickeringCheck, Draw.
  generalize (RenderUI ui g). intros g0.
  destruct (key_ToggleFlashlight ui), (flashMenuToggle g0) eqn:Ht,
           (key_ToggleFlashlightFlicker ui);
    repeat (progress (simpl; rewrite ?Ht)); split.
  all: try (intros cam [H|[H|[H|[H|[]]]]]; try discriminate;
            injection H as <-; split; [reflexivity|];
            exists [], [], [Renderer_RenderShadows (mainShadowCamera g0) ENV_SHADOW;
                            Renderer_Draw (mainCamera g0)]; reflexivity).
  all: try (intros cam [H|[H|[]]]; discriminate).
  all: try (exists [Camera_UpdateViewMatrix (flashShadowCamera g0);
                    Renderer_RenderShadows (flashShadowCamera g0) FLASHLIGHT_SHADOW;
                    Renderer_RenderShadows (mainShadowCamera g0) ENV_SHADOW];
            split; [reflexivity|];
            intros cam [H|[H|[H|[]]]]; discriminate).
  all: try (exists [Renderer_RenderShadows (mainShadowCamera g0) ENV_SHADOW];
            split; [reflexivity|];
            intros cam [H|[]]; discriminate).
Qed.

(** *** The loading screen *)

Lemma iteration_clears_the_flag dw (am : AssetManager) :
  singleLoadComplete (fst (DrawLoadingScreen_iteration dw am)) = false.
Proof.
  unfold DrawLoadingScreen_iteration. now destruct (wait_for dw am).
Qed.

Lemma iteration_frames dw (am : AssetManager) :
  frames_presented (snd (DrawLoadingScreen_iteration dw am))
  = if snd (wait_for dw am) then 1 else 0.
Proof.
  unfold DrawLoadingScreen_iteration.
  destruct (wait_for dw am) as [am1 woken]. now destruct woken.
Qed.


(** X14.  One completion is never presented twice: an iteration leaves the
    flag cleared, and if the loader does not set it again, neither before
    the next test nor during the next wait, the next iteration times out
    and presents nothing. *)
Theorem a_completion_is_not_presented_twice :
  forall (dw : AssetManager -> AssetManager) (next : LoaderTurn) (am : AssetManager),
    (forall a, singleLoadComplete (before_test next a) = singleLoadComplete a) ->
    (forall a, singleLoadComplete (during_wait next a) = singleLoadComplete a) ->
    let am1 := fst (DrawLoadingScreen_iteration dw am) in
    frames_presented
      (snd (DrawLoadingScreen_iteration (during_wait next) (before_test next am1)))
    = 0.
Proof.
  intros dw next am Hb Hd. cbv zeta. rewrite iteration_frames.
  unfold wait_for. rewrite Hb, iteration_clears_the_flag. simpl.
  now rewrite Hd, Hb, iteration_clears_the_flag.
Qed.



Lemma a_completion_is_not_presented_twice_witness :
  let idle_turn := {| before_test := fun a => a; during_wait := fun a => a |} in
  (forall a, singleLoadComplete (before_test idle_turn a) = singleLoadComplete a) /\
  (forall a, singleLoadComplete (during_wait idle_turn a) = singleLoadComplete a) /\
  (let am1 := fst (DrawLoadingScreen_iteration (fun a => a) (globalAssets game0)) in
   frames_presented
     (snd (DrawLoadingScreen_iteration (during_wait idle_turn)
             (before_test idle_turn am1)))
   = 0).
Proof.
  cbv zeta. split; [reflexivity|]. split; [reflexivity|].
  exact (@a_completion_is_not_presented_twice (fun a => a)
           {| before_test := fun a => a; during_wait := fun a => a |}
           (globalAssets game0) (fun a => eq_refl) (fun a => eq_refl)).
Defined.


End GameExtras.

(** ** The index arrows and RenderSky *)

Module GameUIFacts.
Import GameUI.
Local Open Scope Z_scope.

Lemma to_int_small z : - 2 ^ 31 <= z < 2 ^ 31 -> to_int z = z.
Proof.
  unfold to_int. change (2 ^ 31) with 2147483648.
  change (2 ^ 32) with 4294967296. intros H.
  rewrite Z.mod_small by lia. lia.
Qed.

Lemma to_size_t_small z : 0 <= z < 2 ^ 64 -> to_size_t z = z.
Proof. unfold to_size_t. apply Z.mod_small. Qed.

Lemma next_index_cases index size :
  0 <= index < size -> size <= INT_MAX ->
  next_index index size = if index =? size - 1 then 0 else index + 1.
Proof.
  unfold INT_MAX. change (2 ^ 31) with 2147483648. intros Hi Hs.
  unfold next_index.
  rewrite to_int_small by (change (2 ^ 31) with 2147483648; lia).
  rewrite !to_size_t_small by (change (2 ^ 64) with 18446744073709551616; lia).
  destruct (Z.eqb_spec index (size - 1)) as [->|Hne].
  - replace (size - 1 + 1 >? size - 1) with true; [reflexivity|].
    symmetry. apply Z.gtb_lt. lia.
  - replace (index + 1 >? size - 1) with false; [reflexivity|].
    symmetry. rewrite Z.gtb_ltb. apply Z.ltb_ge. lia.
Qed.

Lemma previous_index_cases index size :
  0 <= index < size -> size <= INT_MAX ->
  previous_index index size = if index =? 0 then size - 1 else index - 1.
Proof.
  unfold INT_MAX. change (2 ^ 31) with 2147483648. intros Hi Hs.
  unfold previous_index.
  rewrite (@to_int_small (index - 1)) by (change (2 ^ 31) with 2147483648; lia).
  destruct (Z.eqb_spec index 0) as [->|Hne].
  - change (0 - 1 <? 0) with true. cbv iota.
    rewrite to_size_t_small by (change (2 ^ 64) with 18446744073709551616; lia).
    apply to_int_small. change (2 ^ 31) with 2147483648. lia.
  - replace (index - 1 <? 0) with false; [reflexivity|].
    symmetry. apply Z.ltb_ge. lia.
Qed.

Lemma next_index_mod index size :
  0 <= index < size -> size <= INT_MAX ->
  next_index index size = (index + 1) mod size.
Proof.
  intros Hi Hs. rewrite next_index_cases by assumption.
  destruct (Z.eqb_spec index (size - 1)) as [->|Hne].
  - replace (size - 1 + 1) with size by lia. symmetry. apply Z.mod_same. lia.
  - symmetry. apply Z.mod_small. lia.
Qed.

Lemma previous_index_mod index size :
  0 <= index < size -> size <= INT_MAX ->
  previous_index index size = (index - 1) mod size.
Proof.
  intros Hi Hs. rewrite previous_index_cases by assumption.
  destruct (Z.eqb_spec index 0) as [->|Hne].
  - apply Z.mod_unique with (q := -1); lia.
  - symmetry. apply Z.mod_small. lia.
Qed.

(** X16.  On an index inside a non-empty array, "Next" and "Previous" step
    through the array cyclically: they give [index + 1] and [index - 1]
    modulo the size, and so stay inside the array. *)
Theorem index_arrows_step_cyclically :
  forall index size,
    0 <= index < size -> size <= INT_MAX ->
    next_index index size = (index + 1) mod size /\
    previous_index index size = (index - 1) mod size /\
    0 <= next_index index size < size /\
    0 <= previous_index index size < size.
Proof.
  intros index size Hi Hs.
  rewrite next_index_mod, previous_index_mod by assumption.
  repeat split; try apply Z.mod_pos_bound; lia.
Qed.

(** X17.  "Previous" undoes "Next" and "Next" undoes "Previous". *)
Theorem index_arrows_undo_each_other :
  forall index size,
    0 <= index < size -> size <= INT_MAX ->
    previous_index (next_index index size) size = index /\
    next_index (previous_index index size) size = index.
Proof.
  intros index size Hi Hs. split.
  - rewrite (next_index_cases Hi Hs).
    destruct (Z.eqb_spec index (size - 1)) as [->|Hne].
    + rewrite previous_index_cases by lia. reflexivity.
    + rewrite previous_index_cases by lia.
      destruct (Z.eqb_spec (index + 1) 0); lia.
  - rewrite (previous_index_cases Hi Hs).
    destruct (Z.eqb_spec index 0) as [->|Hne].
    + rewrite next_index_cases by lia. now rewrite Z.eqb_refl.
    + rewrite next_index_cases by lia.
      destruct (Z.eqb_spec (index - 1) (size - 1)); lia.
Qed.

(** X18.  Pressing "Next" [k] times moves the index [k] places round the
    array; in particular [size] presses bring it back. *)
Theorem next_index_k_times :
  forall (k : nat) index size,
    0 <= index < size -> size <= INT_MAX ->
    Nat.iter k (fun i => next_index i size) index
    = (index + Z.of_nat k) mod size.
Proof.
  intros k index size Hi Hs. induction k as [|k IH].
  - simpl. rewrite Z.add_0_r. symmetry. apply Z.mod_small. exact Hi.
  - rewrite Nat.iter_succ, IH.
    rewrite next_index_mod; [|apply Z.mod_pos_bound; lia|exact Hs].
    rewrite Z.add_mod_idemp_l by lia. f_equal. lia.
Qed.

Lemma at_in_range (v : list addr) pos :
  0 <= pos < size v -> at_ v pos = Some (nth (Z.to_nat pos) v nullptr).
Proof.
  unfold at_, size. intros H.
  replace (pos <? Z.of_nat (length v)) with true
    by (symmetry; apply Z.ltb_lt; lia).
  apply nth_error_nth'. lia.
Qed.

(** X19.  With at least one sky and [skyUIIndex] inside the array, [RenderSky]
    never throws: it leaves the index inside the array (one step right,
    one step left, or unchanged; the right arrow wins over the left) and
    hands the sky at the new index to the renderer. *)
Theorem RenderSky_activates_the_sky_at_the_index :
  forall (right left : bool) (s : Skies),
    0 <= skyUIIndex s < size (skies s) ->
    size (skies s) <= INT_MAX ->
    let s' := fst (RenderSky right left s) in
    skyUIIndex s'
    = (if right then (skyUIIndex s + 1) mod size (skies s)
       else if left then (skyUIIndex s - 1) mod size (skies s)
       else skyUIIndex s) /\
    0 <= skyUIIndex s' < size (skies s) /\
    skies s' = skies s /\
    snd (RenderSky right left s)
    = SetActiveSky (nth (Z.to_nat (skyUIIndex s')) (skies s) nullptr).
Proof.
  intros right left s Hi Hs. unfold RenderSky. cbn [fst snd skyUIIndex skies].
  set (index := if right then next_index (skyUIIndex s) (size (skies s))
                else if left then previous_index (skyUIIndex s) (size (skies s))
                else skyUIIndex s).
  assert (index = (if right then (skyUIIndex s + 1) mod size (skies s)
                   else if left then (skyUIIndex s - 1) mod size (skies s)
                   else skyUIIndex s)) as Hindex.
  { subst index. destruct right; [now apply next_index_mod|].
    destruct left; [now apply previous_index_mod|reflexivity]. }
  assert (0 <= index < size (skies s)) as Hrange.
  { rewrite Hindex. destruct right; [apply Z.mod_pos_bound; lia|].
    destruct left; [apply Z.mod_pos_bound; lia|exact Hi]. }
  repeat split; try tauto; try lia.
  rewrite to_size_t_small
    by (unfold INT_MAX in Hs; change (2 ^ 31) with 2147483648 in Hs;
        change (2 ^ 64) with 18446744073709551616; lia).
  now rewrite at_in_range.
Qed.

(** X20.  With no sky at all, [RenderSky] always ends in the exception of
    [skies->at], whatever the keys and the index; and the arrows stop
    cycling: "Next" just counts up and "Previous" from 0 gives -1. *)
Theorem RenderSky_without_skies :
  forall (right left : bool) (s : Skies),
    skies s = [] ->
    snd (RenderSky right left s) = out_of_range /\
    (0 <= skyUIIndex s < INT_MAX ->
     next_index (skyUIIndex s) 0 = skyUIIndex s + 1) /\
    previous_index 0 0 = -1.
Proof.
  intros right left s Hs. split; [|split].
  - unfold RenderSky, at_. rewrite Hs. cbn [snd].
    match goal with |- context [if ?b then _ else _ ] =>
      destruct b end; [|reflexivity].
    now destruct (Z.to_nat _).
  - unfold INT_MAX. change (2 ^ 31) with 2147483648. intros Hi.
    unfold next_index.
    rewrite to_int_small by (change (2 ^ 31) with 2147483648; lia).
    rewrite to_size_t_small by (change (2 ^ 64) with 18446744073709551616; lia).
    change (to_size_t (0 - 1)) with 18446744073709551615.
    replace (skyUIIndex s + 1 >? 18446744073709551615) with false; [reflexivity|].
    symmetry. rewrite Z.gtb_ltb. apply Z.ltb_ge. lia.
  - reflexivity.
Qed.

Lemma index_arrows_step_cyclically_witness :
  0 <= 4 < 5 /\ 5 <= INT_MAX /\
  (next_index 4 5 = (4 + 1) mod 5 /\
   previous_index 4 5 = (4 - 1) mod 5 /\
   0 <= next_index 4 5 < 5 /\
   0 <= previous_index 4 5 < 5).
Proof.
  assert (0 <= 4 < 5) as Hi by lia.
  assert (5 <= INT_MAX) as Hs by (vm_compute; discriminate).
  exact (conj Hi (conj Hs (index_arrows_step_cyclically Hi Hs))).
Defined.

Lemma index_arrows_undo_each_other_witness :
  0 <= 0 < 5 /\ 5 <= INT_MAX /\
  (previous_index (next_index 0 5) 5 = 0 /\
   next_index (previous_index 0 5) 5 = 0).
Proof.
  assert (0 <= 0 < 5) as Hi by lia.
  assert (5 <= INT_MAX) as Hs by (vm_compute; discriminate).
  exact (conj Hi (conj Hs (index_arrows_undo_each_other Hi Hs))).
Defined.

Lemma next_index_k_times_witness :
  0 <= 3 < 5 /\ 5 <= INT_MAX /\
  Nat.iter 5 (fun i => next_index i 5) 3 = (3 + Z.of_nat 5) mod 5.
Proof.
  assert (0 <= 3 < 5) as Hi by lia.
  assert (5 <= INT_MAX) as Hs by (vm_compute; discriminate).
  exact (conj Hi (conj Hs (next_index_k_times 5 Hi Hs))).
Defined.

Lemma RenderSky_activates_the_sky_at_the_index_witness :
  0 <= skyUIIndex skies0 < size (skies skies0) /\
  size (skies skies0) <= INT_MAX /\
  (let s' := fst (RenderSky false true skies0) in
   skyUIIndex s'
   = (if false then (skyUIIndex skies0 + 1) mod size (skies skies0)
      else if true then (skyUIIndex skies0 - 1) mod size (skies skies0)
      else skyUIIndex skies0) /\
   0 <= skyUIIndex s' < size (skies skies0) /\
   skies s' = skies skies0 /\
   snd (RenderSky false true skies0)
   = SetActiveSky (nth (Z.to_nat (skyUIIndex s')) (skies skies0) nullptr)).
Proof.
  assert (0 <= skyUIIndex skies0 < size (skies skies0)) as Hi
      by (vm_compute; split; [discriminate|reflexivity]).
  assert (size (skies skies0) <= INT_MAX) as Hs by (vm_compute; discriminate).
  exact (conj Hi (conj Hs
           (@RenderSky_activates_the_sky_at_the_index false true skies0 Hi Hs))).
Defined.

Lemma RenderSky_without_skies_witness :
  let s := {| skyUIIndex := 0; skies := [] |} in
  skies s = [] /\
  (snd (RenderSky true false s) = out_of_range /\
   (0 <= skyUIIndex s < INT_MAX ->
    next_index (skyUIIndex s) 0 = skyUIIndex s + 1) /\
   previous_index 0 0 = -1).
Proof.
  exact (conj eq_refl
           (@RenderSky_without_skies true false
              {| skyUIIndex := 0; skies := [] |} eq_refl)).
Defined.

End GameUIFacts.

(** ** CollisionManager *)

Module CollisionFacts.
Import CollisionManager.

Section Facts.
Variable GetTriggerStatus : addr -> bool.

Lemma AddAll_spec (cs : list addr) (s : State) :
  markedAsTriggerboxes_ (AddAll GetTriggerStatus cs s)
  = markedAsTriggerboxes_ s ++ filter GetTriggerStatus cs /\
  markedAsColliders_ (AddAll GetTriggerStatus cs s)
  = markedAsColliders_ s ++ filter (fun c => negb (GetTriggerStatus c)) cs.
Proof.
  revert s. induction cs as [|c cs IH]; intros s.
  - simpl. now rewrite !app_nil_r.
  - change (AddAll GetTriggerStatus (c :: cs) s)
      with (AddAll GetTriggerStatus cs (AddColliderToManager GetTriggerStatus c s)).
    destruct (IH (AddColliderToManager GetTriggerStatus c s)) as [Ht Hc].
    rewrite Ht, Hc. unfold AddColliderToManager. simpl.
    destruct (GetTriggerStatus c); simpl; rewrite <- ?app_assoc; auto.
Qed.

(** X21.  Every collider handed to [AddColliderToManager] lands in exactly one
    of the two vectors, by its trigger status at that moment, behind what
    was there and in the order of the calls. *)
Theorem AddColliderToManager_sorts_by_trigger_status :
  forall (cs : list addr) (s : State),
    let s' := AddAll GetTriggerStatus cs s in
    markedAsTriggerboxes_ s' = markedAsTriggerboxes_ s ++ filter GetTriggerStatus cs /\
    markedAsColliders_ s' = markedAsColliders_ s ++ filter (fun c => negb (GetTriggerStatus c)) cs /\
    length (markedAsTriggerboxes_ s') + length (markedAsColliders_ s')
    = length (markedAsTriggerboxes_ s) + length (markedAsColliders_ s) + length cs.
Proof.
  intros cs s. cbv zeta. destruct (AddAll_spec cs s) as [-> ->].
  repeat split. rewrite !length_app.
  assert (length (filter GetTriggerStatus cs) + length (filter (fun c => negb (GetTriggerStatus c)) cs) = length cs)
    as H; [|lia].
  induction cs as [|c cs IH]; simpl; [reflexivity|].
  destruct (GetTriggerStatus c); simpl; lia.
Qed.

Lemma Update_inner_In a c x y :
  In (x, y) (Update_inner GetTriggerStatus a c) <->
  x = a /\ In y c /\ GetTriggerStatus a = false /\ GetTriggerStatus y = true.
Proof.
  induction c as [|b c IH]; simpl.
  - tauto.
  - rewrite in_app_iff, IH. clear IH.
    destruct (Nat.eqb_spec a b) as [->|Hab].
    + simpl. split.
      * intros [[]|(-> & Hy & Hf & Ht)]. auto.
      * intros (-> & [->|Hy] & Hf & Ht); [congruence|auto].
    + destruct (GetTriggerStatus a) eqn:Ha, (GetTriggerStatus b) eqn:Hb; simpl.
      all: split;
        [ intros [H|(-> & Hy & Hf & Ht)];
          [ try contradiction;
            try (destruct H as [H|[]]; injection H as <- <-; auto)
          | auto ]
        | intros (-> & [->|Hy] & Hf & Ht); try congruence; auto ].
Qed.

Lemma Update_outer_In rest c x y :
  In (x, y) (Update_outer GetTriggerStatus rest c) <->
  In x rest /\ In y c /\ GetTriggerStatus x = false /\ GetTriggerStatus y = true.
Proof.
  induction rest as [|a rest IH]; simpl.
  - tauto.
  - rewrite in_app_iff, IH, Update_inner_In. clear IH. split.
    + intros [(-> & H)|(Hx & H)]; auto.
    + intros ([->|Hx] & H); auto.
Qed.

Lemma Update_inner_length a c :
  length (Update_inner GetTriggerStatus a c)
  = if GetTriggerStatus a then 0 else length (filter GetTriggerStatus c).
Proof.
  induction c as [|b c IH]; simpl.
  - now destruct (GetTriggerStatus a).
  - rewrite length_app, IH. clear IH.
    destruct (Nat.eqb_spec a b) as [->|Hab].
    + destruct (GetTriggerStatus b); reflexivity.
    + destruct (GetTriggerStatus a), (GetTriggerStatus b); reflexivity.
Qed.

(** X22.  [Update] tests the bounding boxes of exactly the pairs made of an
    enabled collider that is not a trigger and an enabled collider that
    is one, in that order: never a collider against itself, never two
    triggerboxes, never two plain colliders.  The number of tests is the
    number of plain colliders times the number of triggerboxes. *)
Theorem Update_tests_colliders_against_triggerboxes :
  forall (c : list addr),
    (forall a b,
        In (a, b) (Update GetTriggerStatus c) <->
        In a c /\ In b c /\
        GetTriggerStatus a = false /\ GetTriggerStatus b = true) /\
    (forall a, ~ In (a, a) (Update GetTriggerStatus c)) /\
    length (Update GetTriggerStatus c)
    = length (filter (fun c => negb (GetTriggerStatus c)) c) * length (filter GetTriggerStatus c).
Proof.
  intros c. split; [|split].
  - intros a b. apply Update_outer_In.
  - intros a H. apply Update_outer_In in H. destruct H as (_ & _ & Hf & Ht).
    congruence.
  - unfold Update. generalize c at 1 3. intros rest.
    induction rest as [|a rest IH]; simpl; [reflexivity|].
    rewrite length_app, IH, Update_inner_length.
    destruct (GetTriggerStatus a); simpl; lia.
Qed.

Lemma CheckTrigger_outer_In ts cs x y :
  In (x, y) (CheckTrigger_outer ts cs) <-> In x ts /\ In y cs.
Proof.
  assert (forall t, In (x, y) (CheckTrigger_inner t cs) <-> x = t /\ In y cs) as Hin.
  { intros t. induction cs as [|c cs IH]; simpl; [tauto|].
    rewrite IH. split.
    - intros [H|[-> H]]; [injection H as <- <-|]; auto.
    - intros [-> [->|H]]; auto. }
  induction ts as [|t ts IH]; simpl; [tauto|].
  rewrite in_app_iff, IH, Hin. split.
  - intros [[-> H]|[Hx H]]; auto.
  - intros [[->|Hx] H]; auto.
Qed.

(** X23.  The two collision loops agree.  On a manager that has registered the
    colliders [cs], [CheckTriggerCollisions] tests a triggerbox against a
    plain collider exactly when [Update], run on [cs], tests that plain
    collider against that triggerbox. *)
Theorem Update_and_CheckTriggerCollisions_test_the_same_pairs :
  forall (cs : list addr) (a b : addr),
    In (a, b) (Update GetTriggerStatus cs) <->
    In (b, a) (CheckTriggerCollisions
                 (AddAll GetTriggerStatus cs constructor)).
Proof.
  intros cs a b. unfold Update, CheckTriggerCollisions.
  destruct (AddAll_spec cs constructor) as [-> ->]. simpl.
  rewrite Update_outer_In, CheckTrigger_outer_In, !filter_In.
  rewrite Bool.negb_true_iff. tauto.
Qed.

End Facts.

(** Five enabled colliders, those at even addresses triggerboxes. *)
Example Update_on_five_colliders :
  Update even_triggers [1; 2; 3; 4; 5]
  = [(1, 2); (1, 4); (3, 2); (3, 4); (5, 2); (5, 4)] /\
  AddAll even_triggers [1; 2; 3; 4; 5] constructor
  = {| markedAsTriggerboxes_ := [2; 4]; markedAsColliders_ := [1; 3; 5] |}.
Proof. split; reflexivity. Qed.

End CollisionFacts.
